(** * Risk-Mining-System: the rule compilation and evaluation engine

    A shallow embedding of [src/rule_compile/rule_compiler.py],
    [src/autoeval/evaluator.py], stage 4-5 of [src/main.py] and the
    fallback rules of [src/rule_synthesis/rule_generator.py], together
    with the small part of Python that these files lean on: [str.replace],
    the identifier regular expression, the front end of CPython's parser
    ([ast.parse], [exec]), dictionaries, and [list.sort].

    Conventions.
    - Python [float]s are idealised as rationals ([Q]); NaN and the
      infinities have no counterpart.
    - A Python [str] is a [string] of bytes holding its UTF-8 encoding.
    - A computation returns [Ok v], raises ([Raise e]) or leaves the part
      of Python that is modelled here ([Unmodelled]); no theorem draws a
      conclusion from [Unmodelled].
    - CPython's resource limits (recursion depth, bracket nesting depth,
      the number of digits of an integer literal) are not modelled. *)

From Stdlib Require Import Ascii String QArith Qminmax.
From stdpp Require Import gmap strings list sorting.

#[local] Open Scope string_scope.

(** ** Python values, exceptions and effects *)

Module Py.

(** The exception classes that occur. [IndentationError] is a subclass of
    [SyntaxError]; all of them are subclasses of [Exception]. *)
Inductive exn :=
| SyntaxError
| IndentationError
| KeyError (key : string)
| AttributeError
| TypeError
| NameError (name : string)
| ZeroDivisionError.

Definition is_SyntaxError (e : exn) : bool :=
  match e with
  | SyntaxError | IndentationError => true
  | _ => false
  end.

Inductive result (A : Type) :=
| Ok (a : A)
| Raise (e : exn)
| Unmodelled.
Arguments Ok {A} a.
Arguments Raise {A} e.
Arguments Unmodelled {A}.

Definition rbind {A B : Type} (r : result A) (k : A -> result B) : result B :=
  match r with
  | Ok a => k a
  | Raise e => Raise e
  | Unmodelled => Unmodelled
  end.

Declare Scope result_scope.
Delimit Scope result_scope with result.
Bind Scope result_scope with result.
Notation "x ← r ; k" := (rbind r (fun x => k))
  (at level 20, r at level 100, k at level 200, only parsing) : result_scope.
Notation "' x ← r ; k" := (rbind r (fun x => k))
  (at level 20, x pattern, r at level 100, k at level 200, only parsing) : result_scope.
Notation "r ;; k" := (rbind r (fun _ => k))
  (at level 100, k at level 200, only parsing, right associativity) : result_scope.

(** One row of the data frame, as [row.to_dict()] hands it to a predicate:
    column name to number or text. *)
Inductive cell :=
| CNum (q : Q)
| CStr (s : string).

Abbreviation record := (gmap string cell).

(** A callable stored under ['execute_function']: it returns a truth value
    or raises. *)
Definition predicate : Type := record -> exn + bool.

#[warnings="-register-all"]
Inductive pyval :=
| PNone
| PInt (z : Z)
| PFloat (q : Q)
| PStr (s : string)
| PList (l : list pyval)
| PDict (d : gmap string pyval)
| PFunc (f : predicate).

Abbreviation pydict := (gmap string pyval).

(** [bool(v)] *)
Definition truthy (v : pyval) : bool :=
  match v with
  | PNone => false
  | PInt z => negb (z =? 0)%Z
  | PFloat q => negb (Qeq_bool q 0)
  | PStr s => negb (String.eqb s "")
  | PList l => negb (Nat.eqb (length l) 0)
  | PDict d => negb (Nat.eqb (size d) 0)
  | PFunc _ => true
  end.

(** A number as a rational; [None] for a value that is not a number. *)
Definition as_number (v : pyval) : option Q :=
  match v with
  | PInt z => Some (inject_Z z)
  | PFloat q => Some q
  | _ => None
  end.

(** *** Logging

    Each constructor of [message] is one call site of [logger.info],
    [logger.warning] or [logger.error]; the interpolated values are its
    arguments. *)
Inductive level := INFO | WARNING | ERROR.

Inductive message :=
| MsgValidating (rule_id : pyval)
| MsgMissingField (field : string)
| MsgDslSyntaxError (e : exn)
| MsgDslSyntaxFailed
| MsgUndefinedVariable (var : string)
| MsgVariableCheckFailed
| MsgDivisionByZeroRisk
| MsgValidationPassed
| MsgCompiling (rule_id : pyval)
| MsgCompiled
| MsgStage (n : nat)
| MsgPipelineFailed (e : exn)
| MsgPipelineDone
| MsgEvaluating (n_rules : nat)
| MsgEvaluationFailed (rule_id : pyval) (e : exn)
| MsgEvaluated (n_selected : nat).

Abbreviation log_record := (level * message)%type.

(** *** The store and the monad

    Rule dictionaries are objects: [rule.copy()] allocates, and
    [d[k] = v] updates the object in place. *)
Abbreviation loc := positive.

Record state := State {
  heap : gmap loc pydict;
  logs : list log_record
}.

Definition M (A : Type) : Type := state -> result A * state.

Definition ret {A : Type} (a : A) : M A := fun σ => (Ok a, σ).

Definition bind {A B : Type} (m : M A) (k : A -> M B) : M B := fun σ =>
  match m σ with
  | (Ok a, σ') => k a σ'
  | (Raise e, σ') => (Raise e, σ')
  | (Unmodelled, σ') => (Unmodelled, σ')
  end.

Declare Scope py_scope.
Delimit Scope py_scope with py.
Bind Scope py_scope with M.
Notation "x ← m ; k" := (bind m (fun x => k))
  (at level 20, m at level 100, k at level 200, only parsing) : py_scope.
Notation "' x ← m ; k" := (bind m (fun x => k))
  (at level 20, x pattern, m at level 100, k at level 200, only parsing) : py_scope.
Notation "m ;; k" := (bind m (fun _ => k))
  (at level 100, k at level 200, only parsing, right associativity) : py_scope.

Definition raise {A} (e : exn) : M A := fun σ => (Raise e, σ).

Definition lift {A} (r : result A) : M A := fun σ => (r, σ).

Definition log (l : level) (m : message) : M unit := fun σ =>
  (Ok tt, State (heap σ) (logs σ ++ [(l, m)])).

(** [try: body except C as e: handler(e)], where [C] is the class test
    [catches]. *)
Definition try_except {A} (body : M A) (catches : exn -> bool)
    (handler : exn -> M A) : M A := fun σ =>
  match body σ with
  | (Raise e, σ') => if catches e then handler e σ' else (Raise e, σ')
  | r => r
  end.

Definition deref (l : loc) : M pydict := fun σ =>
  match heap σ !! l with
  | Some d => (Ok d, σ)
  | None => (Unmodelled, σ)
  end.

(** [d.copy()] for the object [d] at a given value: a new object. *)
Definition alloc (d : pydict) : M loc := fun σ =>
  let l := fresh (dom (heap σ)) in
  (Ok l, State (<[l := d]> (heap σ)) (logs σ)).

(** [obj[k] = v] *)
Definition setitem (l : loc) (k : string) (v : pyval) : M unit := fun σ =>
  match heap σ !! l with
  | Some d => (Ok tt, State (<[l := <[k := v]> d]> (heap σ)) (logs σ))
  | None => (Unmodelled, σ)
  end.

(** [d[k]] *)
Definition getitem (d : pydict) (k : string) : M pyval :=
  match d !! k with
  | Some v => ret v
  | None => raise (KeyError k)
  end.

(** [d.get(k, default)] *)
Definition get (d : pydict) (k : string) (default : pyval) : pyval :=
  match d !! k with
  | Some v => v
  | None => default
  end.

(** The default of [rule.get('id', ...)] in the log calls. *)
Definition unknown_id : pyval := PStr "未知ID".

End Py.
Import Py.
#[local] Open Scope py_scope.

(** ** Python strings *)

Module PyStr.

Definition is_lower (c : ascii) : bool := (("a" <=? c) && (c <=? "z"))%char.
Definition is_upper (c : ascii) : bool := (("A" <=? c) && (c <=? "Z"))%char.
Definition is_digit (c : ascii) : bool := (("0" <=? c) && (c <=? "9"))%char.
Definition is_underscore (c : ascii) : bool := (c =? "_")%char.

(** [[a-zA-Z_]] *)
Definition is_ident_start (c : ascii) : bool :=
  is_lower c || is_upper c || is_underscore c.

(** The word class of the regular expression, on ASCII text. *)
Definition is_word (c : ascii) : bool := is_ident_start c || is_digit c.

Definition is_ascii_char (c : ascii) : bool := (c <=? "127")%char.

Fixpoint is_ascii (s : string) : bool :=
  match s with
  | "" => true
  | String c s' => is_ascii_char c && is_ascii s'
  end.

(** [s.startswith(p)] *)
Fixpoint startswith (p s : string) : bool :=
  match p, s with
  | "", _ => true
  | String a p', String b s' => (a =? b)%char && startswith p' s'
  | String _ _, "" => false
  end.

(** [sub in s] *)
Fixpoint contains (sub s : string) : bool :=
  startswith sub s ||
  match s with
  | "" => false
  | String _ s' => contains sub s'
  end.

(** [s.replace(old, new)] for a non-empty [old]: the text is scanned from
    the left; where [old] starts, [new] is emitted and the scan resumes
    after the occurrence ([skip] counts the characters of the occurrence
    that are still to be passed over). *)
Fixpoint replace_from (old new : string) (skip : nat) (s : string) : string :=
  match s with
  | "" => ""
  | String c s' =>
      match skip with
      | S k => replace_from old new k s'
      | O =>
          if startswith old s
          then new ++ replace_from old new (String.length old - 1) s'
          else String c (replace_from old new 0 s')
      end
  end.

Definition replace (old new s : string) : string := replace_from old new 0 s.

(** The maximal runs of word characters of [s], left to right; [cur] is
    the run being read. *)
Definition flush_run (cur : string) : list string :=
  if String.eqb cur "" then [] else [cur].

Fixpoint word_runs_from (cur : string) (s : string) : list string :=
  match s with
  | "" => flush_run cur
  | String c s' =>
      if is_word c then word_runs_from (cur ++ String c "") s'
      else flush_run cur ++ word_runs_from "" s'
  end.

Definition word_runs (s : string) : list string := word_runs_from "" s.

Definition head_is (p : ascii -> bool) (s : string) : bool :=
  match s with
  | "" => false
  | String c _ => p c
  end.

(** [var_pattern.findall(s)] for the pattern that reads: word boundary,
    one character of [[a-zA-Z_]], any number of word characters (greedy),
    word boundary; the group is the text between the boundaries. A match
    can only start at a word boundary and the greedy repetition runs up to
    the next boundary, so the matches are the maximal word runs that start
    with a letter or an underscore; a run that starts with a digit contains
    no boundary and yields nothing. The word class is Unicode-aware in
    Python 3, so only ASCII text is modelled. *)
Definition findall_identifiers (s : string) : result (list string) :=
  if is_ascii s then Ok (filter (fun w => Is_true (head_is is_ident_start w)) (word_runs s))
  else Unmodelled.

End PyStr.

(** [x in container] for a text [x] *)
Definition py_in (x : string) (container : pyval) : result bool :=
  match container with
  | PDict d => Ok (bool_decide (is_Some (d !! x)))
  | PList l =>
      Ok (existsb (fun v => match v with PStr s => String.eqb s x | _ => false end) l)
  | PStr s => Ok (PyStr.contains x s)
  | _ => Raise TypeError
  end.

(** ** The front end of CPython's parser

    [ast.parse(text)] and [exec(text, namespace)] first turn the text into
    a module. What is modelled: the indentation rule for the first logical
    line, and the grammar of a module that is one expression statement
    over names, decimal literals, [and]/[or]/[not], the arithmetic and
    comparison operators, parentheses, calls and commas. Everything else
    (other keywords and operators, strings, comments, several lines, text
    outside ASCII, starred expressions, [=]) is [Unmodelled]. *)

Module PySyntax.
Import PyStr.

Definition char_in (c : ascii) (set : string) : bool :=
  contains (String c "") set.

(** *** The first logical line *)

Inductive line_start :=
| NoCode                  (* nothing but blank lines *)
| Indented                (* the first statement starts right of column 0 *)
| Column0 (rest : string) (* the text from the first statement on *)
| OtherLine.              (* a comment, form feed, carriage return... *)

(** The tokenizer skips blank lines; the first line that holds code must
    start at column 0, or the module opens with an INDENT token, which no
    statement starts with. [indented]: blanks were read on this line. *)
Fixpoint first_logical_line (indented : bool) (s : string) : line_start :=
  match s with
  | "" => NoCode
  | String c s' =>
      if char_in c (String " " (String "009" ""))
      then first_logical_line true s'
      else if (c =? "010")%char then first_logical_line false s'
      else if char_in c (String "#" (String "013" (String "012" (String "\" ""))))
      then OtherLine
      else if indented then Indented else Column0 s
  end.

(** *** Tokens *)

Inductive token :=
| TName (s : string)  (* an identifier; also True, False, None *)
| TNumber             (* a decimal literal *)
| TAnd | TOr | TNot
| TAdd                (* + or -, unary or binary *)
| TStar | TSlash
| TCmp                (* < > <= >= == != *)
| TAssign             (* = *)
| TLpar | TRpar | TComma
| TBad.               (* a character that starts no token: $ ? ! *)

Definition other_keywords : list string :=
  ["as"; "assert"; "async"; "await"; "break"; "class"; "continue"; "def";
   "del"; "elif"; "else"; "except"; "finally"; "for"; "from"; "global";
   "if"; "import"; "in"; "is"; "lambda"; "nonlocal"; "pass"; "raise";
   "return"; "try"; "while"; "with"; "yield"].

Definition classify_name (w : string) : result token :=
  if String.eqb w "and" then Ok TAnd
  else if String.eqb w "or" then Ok TOr
  else if String.eqb w "not" then Ok TNot
  else if existsb (String.eqb w) other_keywords then Unmodelled
  else Ok (TName w).

(** The operator that a single character of [+-*/<>=!] is. *)
Definition single_op (c : ascii) : token :=
  if char_in c "+-" then TAdd
  else if (c =? "*")%char then TStar
  else if (c =? "/")%char then TSlash
  else if char_in c "<>" then TCmp
  else if (c =? "=")%char then TAssign
  else TBad.

(** Longest match: the two-character operators that start with one of
    [+-*/<>=!]. *)
Definition two_char_op (c1 c2 : ascii) : option (result token) :=
  let op := String c1 (String c2 "") in
  if existsb (String.eqb op) ["<="; ">="; "=="; "!="] then Some (Ok TCmp)
  else if existsb (String.eqb op)
            ["**"; "//"; "<<"; ">>"; "<>"; "->"; "+="; "-="; "*="; "/="]
  then Some Unmodelled
  else None.

Inductive lex_state :=
| LStart                (* between tokens *)
| LName (acc : string)  (* in an identifier *)
| LZero                 (* read the literal 0 *)
| LInt                  (* in the integer part of a literal *)
| LFrac                 (* after the decimal point *)
| LOp (c : ascii).      (* read an operator character *)

(** A character read between tokens. *)
Definition start_char (c : ascii) : result (list token * lex_state) :=
  if char_in c (String " " (String "009" "")) then Ok ([], LStart)
  else if is_ident_start c then Ok ([], LName (String c ""))
  else if (c =? "0")%char then Ok ([], LZero)
  else if is_digit c then Ok ([], LInt)
  else if (c =? "(")%char then Ok ([TLpar], LStart)
  else if (c =? ")")%char then Ok ([TRpar], LStart)
  else if (c =? ",")%char then Ok ([TComma], LStart)
  else if char_in c "+-*/<>=!" then Ok ([], LOp c)
  else if char_in c "$?" then Ok ([TBad], LStart)
  else Unmodelled.

Definition emit_then (t : token) (c : ascii) : result (list token * lex_state) :=
  ('(ts, st) ← start_char c; Ok (t :: ts, st))%result.

Definition step (st : lex_state) (c : ascii) : result (list token * lex_state) :=
  match st with
  | LStart => start_char c
  | LName acc =>
      if is_word c then Ok ([], LName (acc ++ String c ""))
      else (t ← classify_name acc; emit_then t c)%result
  | LZero =>
      if is_digit c then Unmodelled
      else if (c =? ".")%char then Ok ([], LFrac)
      else if is_ident_start c then Unmodelled
      else emit_then TNumber c
  | LInt =>
      if is_digit c then Ok ([], LInt)
      else if (c =? ".")%char then Ok ([], LFrac)
      else if is_ident_start c then Unmodelled
      else emit_then TNumber c
  | LFrac =>
      if is_digit c then Ok ([], LFrac)
      else if (c =? ".")%char || is_ident_start c then Unmodelled
      else emit_then TNumber c
  | LOp c1 =>
      match two_char_op c1 c with
      | Some r => (t ← r; Ok ([t], LStart))%result
      | None => emit_then (single_op c1) c
      end
  end.

(** The end of the text closes the token being read. *)
Definition flush (st : lex_state) : result (list token) :=
  match st with
  | LStart => Ok []
  | LName acc => (t ← classify_name acc; Ok [t])%result
  | LZero | LInt | LFrac => Ok [TNumber]
  | LOp c => Ok [single_op c]
  end.

Fixpoint tokenize_from (st : lex_state) (s : string) : result (list token) :=
  match s with
  | "" => flush st
  | String c s' =>
      ('(ts, st') ← step st c;
       rest ← tokenize_from st' s';
       Ok (ts ++ rest)%list)%result
  end.

Definition tokenize (s : string) : result (list token) := tokenize_from LStart s.

(** *** The grammar

    Over these tokens an expression statement is recognised by a counter
    automaton: [depth] open parentheses, and either an operand is expected
    or one has just been read. [closable]: the operand may be missing
    (right after an opening parenthesis or a comma). [tight]: the operand
    is that of an arithmetic or comparison operator, where [not] cannot
    start it. *)
Inductive mode :=
| Operand (closable tight : bool)
| Operator.

Fixpoint parse_tokens (depth : nat) (m : mode) (ts : list token) : result unit :=
  match ts with
  | [] =>
      match m with
      | Operator => if Nat.eqb depth 0 then Ok tt else Raise SyntaxError
      | Operand closable _ =>
          if closable && Nat.eqb depth 0 then Ok tt else Raise SyntaxError
      end
  | t :: ts' =>
      match m with
      | Operand closable tight =>
          match t with
          | TName _ | TNumber => parse_tokens depth Operator ts'
          | TAdd => parse_tokens depth (Operand false true) ts'
          | TNot =>
              if tight then Raise SyntaxError
              else parse_tokens depth (Operand false false) ts'
          | TLpar => parse_tokens (S depth) (Operand true false) ts'
          | TRpar =>
              match depth with
              | S d => if closable then parse_tokens d Operator ts'
                       else Raise SyntaxError
              | O => Raise SyntaxError
              end
          | TStar => Unmodelled
          | _ => Raise SyntaxError
          end
      | Operator =>
          match t with
          | TAdd | TStar | TSlash | TCmp => parse_tokens depth (Operand false true) ts'
          | TAnd | TOr => parse_tokens depth (Operand false false) ts'
          | TComma => parse_tokens depth (Operand true false) ts'
          | TLpar => parse_tokens (S depth) (Operand true false) ts'
          | TRpar =>
              match depth with
              | S d => parse_tokens d Operator ts'
              | O => Raise SyntaxError
              end
          | _ => Raise SyntaxError
          end
      end
  end.

(** An [=] may open an assignment, a keyword argument or a type alias,
    none of which is modelled; only after [not] it cannot stand. *)
Fixpoint unguarded_assign (after_not : bool) (ts : list token) : bool :=
  match ts with
  | [] => false
  | TAssign :: ts' => negb after_not || unguarded_assign false ts'
  | TNot :: ts' => unguarded_assign true ts'
  | _ :: ts' => unguarded_assign false ts'
  end.

(** [ast.parse(src)], [compile(src, ..., 'exec')]: the module is built or
    a [SyntaxError] is raised. A text with a NUL character is refused with
    an exception whose class depends on the version of CPython. *)
Definition py_parse (src : string) : result unit :=
  if char_in "000" src then Unmodelled
  else
    match first_logical_line false src with
    | NoCode => Ok tt
    | Indented => Raise IndentationError
    | OtherLine => Unmodelled
    | Column0 rest =>
        (ts ← tokenize rest;
         if unguarded_assign false ts then Unmodelled
         else parse_tokens 0 (Operand false false) ts)%result
    end.

End PySyntax.

(** ** [src/rule_compile/rule_compiler.py] *)

Module RuleCompiler.
Import PyStr PySyntax.

(** [v.replace(old, new)]: only a [str] has the method. *)
Definition method_replace (v : pyval) (old new : string) : result pyval :=
  match v with
  | PStr s => Ok (PStr (replace old new s))
  | _ => Raise AttributeError
  end.

(** [self.allowed_operators] and [self.allowed_functions] of [__init__] *)
Definition allowed_operators : list string :=
  ["+"; "-"; "*"; "/"; ">"; "<"; ">="; "<="; "=="; "!="; "&&"; "||"; "!"; "("; ")"].

Definition allowed_functions : list string := ["abs"; "max"; "min"].

Definition required_fields : list string :=
  ["id"; "rule_text"; "dsl"; "variables_used"; "period"; "industry_scope"].

Definition keywords : list string :=
  ["and"; "or"; "not"; "True"; "False"; "abs"; "max"; "min"].

Definition nl : string := String "010" "".
Definition dq : string := String "034" "".

(** The text that [_create_execution_function] builds around
    [python_expr], line by line. *)
Definition func_code_lines (python_expr : string) : list string :=
  [ "";
    "        def execute_rule(data):";
    "            try:";
    "                # 确保所有需要的变量都在数据中";
    "                for var_name, var_desc in variables_used.items():";
    "                    if var_name not in data:";
    "                        # 处理Q分位数变量";
    "                        if var_name.startswith('Q') and '_' in var_name:";
    "                            # 这里可以添加Q分位数变量的处理逻辑";
    "                            pass";
    "                        else:";
    "                            return False";
    "                ";
    "                # 执行表达式";
    "                return bool(" ++ python_expr ++ ")";
    "            except Exception as e:";
    "                # 记录错误但不中断流程";
    "                logger.error(f" ++ dq ++ "执行规则时出错: {str(e)}" ++ dq ++ ")";
    "                return False";
    "        " ].

Fixpoint join_lines (ls : list string) : string :=
  match ls with
  | [] => ""
  | [l] => l
  | l :: ls' => l ++ nl ++ join_lines ls'
  end.

Definition func_code (python_expr : string) : string :=
  join_lines (func_code_lines python_expr).

(** The first required field that [rule] lacks. *)
Fixpoint missing_field (fields : list string) (rule : pydict) : option string :=
  match fields with
  | [] => None
  | field :: fields' =>
      match rule !! field with
      | None => Some field
      | Some _ => missing_field fields' rule
      end
  end.

Section compiler.

(** A [set] of names is iterated in an order that depends on the hash
    seed of the process: [set_order l] is the order in which the set of
    the elements of [l] is run through. *)
Variable set_order : list string -> list string.

Definition _validate_dsl_syntax (dsl : pyval) : M bool :=
  try_except
    (python_expr ← lift (v ← method_replace dsl "&&" " and ";
                         v ← method_replace v "||" " or ";
                         method_replace v "!" " not ")%result;
     match python_expr with
     | PStr src => lift (py_parse src) ;; ret true
     | _ => raise TypeError
     end)
    is_SyntaxError
    (fun e => log ERROR (MsgDslSyntaxError e) ;; ret false).

(** The loop over [variables_in_dsl]. *)
Fixpoint check_variables (variables_used : pyval) (vars : list string) : M bool :=
  match vars with
  | [] => ret true
  | var :: vars' =>
      if startswith "Q" var && contains "_" var
      then check_variables variables_used vars'
      else
        declared ← lift (py_in var variables_used);
        if declared then check_variables variables_used vars'
        else log ERROR (MsgUndefinedVariable var) ;; ret false
  end.

Definition _validate_variable_references (dsl variables_used : pyval) : M bool :=
  matches ← lift (match dsl with
                  | PStr s => findall_identifiers s
                  | _ => Raise TypeError
                  end);
  let variables_in_dsl :=
    set_order (filter (fun var => (var ∉ keywords) ∧ (var ∉ allowed_functions)) matches) in
  check_variables variables_used variables_in_dsl.

Definition _has_division_by_zero_risk (dsl : pyval) : result bool :=
  (has_slash ← py_in "/" dsl;
   if has_slash then
     direct ← py_in "/0" dsl;
     if direct then Ok true
     else spaced ← py_in "/ 0" dsl; Ok spaced
   else Ok false)%result.

Definition validate_rule (rule : pydict) : M bool :=
  log INFO (MsgValidating (get rule "id" unknown_id)) ;;
  match missing_field required_fields rule with
  | Some field => log ERROR (MsgMissingField field) ;; ret false
  | None =>
      dsl ← getitem rule "dsl";
      syntax_ok ← _validate_dsl_syntax dsl;
      if negb syntax_ok then log ERROR MsgDslSyntaxFailed ;; ret false
      else
        dsl ← getitem rule "dsl";
        variables_used ← getitem rule "variables_used";
        refs_ok ← _validate_variable_references dsl variables_used;
        if negb refs_ok then log ERROR MsgVariableCheckFailed ;; ret false
        else
          dsl ← getitem rule "dsl";
          risk ← lift (_has_division_by_zero_risk dsl);
          (if risk then log WARNING MsgDivisionByZeroRisk else ret tt) ;;
          log INFO MsgValidationPassed ;;
          ret true
  end.

Definition _translate_to_python (dsl : pyval) : result pyval :=
  (v ← method_replace dsl "&&" " and ";
   v ← method_replace v "||" " or ";
   method_replace v "!" " not ")%result.

(** [exec(func_code, namespace)] compiles the text as a module and runs
    it; [namespace['execute_rule']] is then the function it defined. A
    text that [py_parse] takes is blank or an expression statement, whose
    run is not modelled. *)
Definition _create_execution_function (python_expr : pyval) (variables_used : pyval)
    : result predicate :=
  match python_expr with
  | PStr expr => (py_parse (func_code expr) ;; Unmodelled)%result
  | _ => Unmodelled
  end.

Definition compile_rule (rule : loc) : M loc :=
  fields ← deref rule;
  log INFO (MsgCompiling (get fields "id" unknown_id)) ;;
  compiled_rule ← alloc fields;
  dsl ← getitem fields "dsl";
  python_expr ← lift (_translate_to_python dsl);
  setitem compiled_rule "python_expression" python_expr ;;
  variables_used ← getitem fields "variables_used";
  execute_function ← lift (_create_execution_function python_expr variables_used);
  setitem compiled_rule "execute_function" (PFunc execute_function) ;;
  log INFO MsgCompiled ;;
  ret compiled_rule.

End compiler.
End RuleCompiler.

(** ** [src/autoeval/evaluator.py] *)

Module RuleEvaluator.
#[local] Open Scope Q_scope.

(** The data frame as [iterrows()] runs through it: index label and row. *)
Abbreviation dataframe := (list (string * record)).

Record evaluator := Evaluator {
  config : pydict;
  metric_weights : list (string * Q)
}.

Definition __init__ (config : pydict) : evaluator :=
  Evaluator config
    [("coverage", 2 # 10); ("anomaly_lift", 3 # 10); ("stability", 2 # 10);
     ("specificity", 2 # 10); ("consistency", 1 # 10)].

Definition Qltb (x y : Q) : bool := negb (Qle_bool y x).

(** [min(a, b)] and [max(a, b)]: the first argument, unless the second is
    strictly smaller (larger). *)
Definition py_min (a b : Q) : Q := if Qltb b a then b else a.
Definition py_max (a b : Q) : Q := if Qltb a b then b else a.

(** [f(row)] for whatever is stored under ['execute_function'] *)
Definition py_call (f : pyval) (row : record) : result bool :=
  match f with
  | PFunc p => match p row with inl e => Raise e | inr b => Ok b end
  | _ => Raise TypeError
  end.

(** [row.to_dict()] with the company name added *)
Definition row_dict (company_name : string) (row : record) : record :=
  <["company_name" := CStr company_name]> row.

Fixpoint count_hits (execute_func : pyval) (data : dataframe) (hit_count : nat)
    : result nat :=
  match data with
  | [] => Ok hit_count
  | (company_name, row) :: data' =>
      (hit ← py_call execute_func (row_dict company_name row);
       count_hits execute_func data' (if hit then S hit_count else hit_count))%result
  end.

Definition Qnat (n : nat) : Q := inject_Z (Z.of_nat n).

Definition _calculate_coverage (rule : pydict) (data : dataframe) : result Q :=
  let execute_func := get rule "execute_function" PNone in
  if negb (truthy execute_func) then Ok 0
  else
    (let total_count := length data in
     hit_count ← count_hits execute_func data 0;
     Ok (if (0 <? total_count)%nat then Qnat hit_count / Qnat total_count else 0))%result.

Fixpoint collect_hit_scores (execute_func : pyval) (data : dataframe)
    (anomaly_scores : gmap string Q) (hit_scores : list Q) : result (list Q) :=
  match data with
  | [] => Ok hit_scores
  | (company_name, row) :: data' =>
      (hit ← py_call execute_func (row_dict company_name row);
       collect_hit_scores execute_func data' anomaly_scores
         (match hit, anomaly_scores !! company_name with
          | true, Some score => hit_scores ++ [score]
          | _, _ => hit_scores
          end)%list)%result
  end.

(** [np.mean] of a non-empty list *)
Definition mean (l : list Q) : Q := foldr Qplus 0 l / Qnat (length l).

Definition _calculate_anomaly_lift (rule : pydict) (data : dataframe)
    (anomaly_scores : gmap string Q) : result Q :=
  let execute_func := get rule "execute_function" PNone in
  if negb (truthy execute_func) then Ok 1
  else
    (let all_scores := (map_to_list anomaly_scores).*2 in
     hit_scores ← collect_hit_scores execute_func data anomaly_scores [];
     match hit_scores, all_scores with
     | [], _ | _, [] => Ok 1
     | _, _ =>
         let hit_mean := mean hit_scores in
         let all_mean := mean all_scores in
         Ok (if Qltb 0 all_mean then hit_mean / all_mean else 1)
     end)%result.

Definition _calculate_stability (rule : pydict) (data : dataframe) : Q := 8 # 10.
Definition _calculate_specificity (rule : pydict) : Q := 7 # 10.
Definition _calculate_industry_consistency (rule : pydict) (data : dataframe) : Q := 6 # 10.

Definition _calculate_rule_metrics (rule : pydict) (data : dataframe)
    (anomaly_scores : gmap string Q) : result pydict :=
  (coverage ← _calculate_coverage rule data;
   anomaly_lift ← _calculate_anomaly_lift rule data anomaly_scores;
   let stability := _calculate_stability rule data in
   let specificity := _calculate_specificity rule in
   let consistency := _calculate_industry_consistency rule data in
   Ok (<["consistency" := PFloat consistency]>
       (<["specificity" := PFloat specificity]>
       (<["stability" := PFloat stability]>
       (<["anomaly_lift" := PFloat anomaly_lift]>
       (<["coverage" := PFloat coverage]> ∅))))))%result.

(** [container[key]] *)
Definition subscript (container : pyval) (key : string) : result pyval :=
  match container with
  | PDict d =>
      match d !! key with
      | Some v => Ok v
      | None => Raise (KeyError key)
      end
  | _ => Raise TypeError
  end.

(** A value used as a number: [TypeError] otherwise. *)
Definition number (v : pyval) : result Q :=
  match as_number v with
  | Some q => Ok q
  | None => Raise TypeError
  end.

(** The loop of [_calculate_overall_score] over [self.metric_weights.items()]. *)
Fixpoint add_weighted (weights : list (string * Q)) (metrics : pyval)
    (overall_score : Q) : result Q :=
  match weights with
  | [] => Ok overall_score
  | (metric_name, weight) :: weights' =>
      (present ← py_in metric_name metrics;
       if present then
         value ← subscript metrics metric_name;
         value ← number value;
         let normalized_value := py_max 0 (py_min 1 value) in
         add_weighted weights' metrics (overall_score + normalized_value * weight)
       else add_weighted weights' metrics overall_score)%result
  end.

Definition _calculate_overall_score (self : evaluator) (metrics : pyval) : result Q :=
  add_weighted (metric_weights self) metrics 0.

(** [l[:n]] for the value [n]. *)
Definition slice_to {A} (l : list A) (n : pyval) : result (list A) :=
  match n with
  | PNone => Ok l
  | PInt z =>
      Ok (if (0 <=? z)%Z then take (Z.to_nat z) l
          else take (Z.to_nat (Z.of_nat (length l) + z)) l)
  | _ => Raise TypeError
  end.

(** [a <= b] between numbers; the comparison of other values is not
    modelled. *)
Definition py_le (a b : pyval) : result bool :=
  match as_number a, as_number b with
  | Some x, Some y => Ok (Qle_bool x y)
  | _, _ => Unmodelled
  end.

(** [d.get(key, default)] on a value *)
Definition method_get (d : pyval) (key : string) (default : pyval) : result pyval :=
  match d with
  | PDict m => Ok (get m key default)
  | _ => Raise AttributeError
  end.

Fixpoint filter_by_coverage (min_coverage max_coverage : pyval)
    (selected_rules : list pydict) : result (list pydict) :=
  match selected_rules with
  | [] => Ok []
  | rule :: rules' =>
      (metrics ← subscript (PDict rule) "metrics";
       coverage ← method_get metrics "coverage" (PFloat 0);
       low ← py_le min_coverage coverage;
       keep ← (if low then py_le coverage max_coverage else Ok false);
       rest ← filter_by_coverage min_coverage max_coverage rules';
       Ok (if keep then rule :: rest else rest))%result
  end.

Definition _select_optimal_rules (self : evaluator) (evaluated_rules : list pydict)
    : result (list pydict) :=
  (let top_n := get (config self) "top_n_rules" (PInt 10) in
   selected_rules ← slice_to evaluated_rules top_n;
   let min_coverage := get (config self) "min_coverage" (PFloat (2 # 100)) in
   let max_coverage := get (config self) "max_coverage" (PFloat (8 # 100)) in
   filter_by_coverage min_coverage max_coverage selected_rules)%result.

(** [list.sort(key=..., reverse=True)] on numeric keys: the stable sort
    into descending order, written as an insertion sort. An element goes
    in front of the first one whose key is not larger than its own, so
    that it stays ahead of the equal keys that followed it. *)
Fixpoint insert_desc {A} (key : A -> Q) (x : A) (l : list A) : list A :=
  match l with
  | [] => [x]
  | y :: l' => if Qltb (key x) (key y) then y :: insert_desc key x l' else x :: l
  end.

Fixpoint sort_desc {A} (key : A -> Q) (l : list A) : list A :=
  match l with
  | [] => []
  | x :: l' => insert_desc key x (sort_desc key l')
  end.

(** The sort keys, [x.get('overall_score', 0)]; keys that are not all
    numbers are not modelled. *)
Fixpoint with_keys (rules : list pydict) : result (list (Q * pydict)) :=
  match rules with
  | [] => Ok []
  | rule :: rules' =>
      match as_number (get rule "overall_score" (PInt 0)) with
      | Some k => (rest ← with_keys rules'; Ok ((k, rule) :: rest))%result
      | None => Unmodelled
      end
  end.

Definition sort_by_overall_score (rules : list pydict) : result (list pydict) :=
  (keyed ← with_keys rules; Ok (sort_desc fst keyed).*2)%result.

(** The first loop of [evaluate_and_select_rules]. *)
Fixpoint evaluate_rules (compiled_rules : list pydict) (data : dataframe)
    (anomaly_scores : gmap string Q) : M (list pydict) :=
  match compiled_rules with
  | [] => ret []
  | rule :: rules' =>
      evaluated ←
        try_except
          (metrics ← lift (_calculate_rule_metrics rule data anomaly_scores);
           let rule_with_metrics := <["metrics" := PDict metrics]> rule in
           ret [rule_with_metrics])
          (fun _ => true)
          (fun e => log ERROR (MsgEvaluationFailed (get rule "id" unknown_id) e) ;; ret []);
      rest ← evaluate_rules rules' data anomaly_scores;
      ret (evaluated ++ rest)%list
  end.

(** The second loop: [rule['overall_score'] = ...] *)
Fixpoint score_rules (self : evaluator) (evaluated_rules : list pydict)
    : result (list pydict) :=
  match evaluated_rules with
  | [] => Ok []
  | rule :: rules' =>
      (metrics ← subscript (PDict rule) "metrics";
       overall_score ← _calculate_overall_score self metrics;
       rest ← score_rules self rules';
       Ok (<["overall_score" := PFloat overall_score]> rule :: rest))%result
  end.

Definition evaluate_and_select_rules (self : evaluator) (compiled_rules : list pydict)
    (data : dataframe) (anomaly_scores : gmap string Q) : M (list pydict) :=
  log INFO (MsgEvaluating (length compiled_rules)) ;;
  evaluated_rules ← evaluate_rules compiled_rules data anomaly_scores;
  evaluated_rules ← lift (score_rules self evaluated_rules);
  evaluated_rules ← lift (sort_by_overall_score evaluated_rules);
  selected_rules ← lift (_select_optimal_rules self evaluated_rules);
  log INFO (MsgEvaluated (length selected_rules)) ;;
  ret selected_rules.

End RuleEvaluator.

(** ** [src/main.py]: stages 4 and 5 of [run_pipeline] *)

Module RiskMiningSystem.
Import RuleCompiler RuleEvaluator.

Section pipeline.
Variable set_order : list string -> list string.

(** Stage 4, the loop over [rules]. *)
Fixpoint compile_valid_rules (rules : list loc) : M (list loc) :=
  match rules with
  | [] => ret []
  | rule :: rules' =>
      fields ← deref rule;
      valid ← validate_rule set_order fields;
      if valid then
        compiled_rule ← compile_rule rule;
        rest ← compile_valid_rules rules';
        ret (compiled_rule :: rest)
      else compile_valid_rules rules'
  end.

Fixpoint deref_all (ls : list loc) : M (list pydict) :=
  match ls with
  | [] => ret []
  | l :: ls' => d ← deref l; ds ← deref_all ls'; ret (d :: ds)
  end.

(** [run_pipeline] from stage 4 on, given what stages 1 to 3 produced
    (the data, the anomaly scores and the generated rules); the value is
    [selected_rules]. Stage 6, which writes them to a file, is left out. *)
Definition run_pipeline (rule_evaluator : evaluator) (rules : list loc)
    (data : dataframe) (anomaly_scores : gmap string Q) : M (list pydict) :=
  try_except
    (log INFO (MsgStage 4) ;;
     compiled_rules ← compile_valid_rules rules;
     log INFO (MsgStage 5) ;;
     compiled_rules ← deref_all compiled_rules;
     selected_rules ←
       evaluate_and_select_rules rule_evaluator compiled_rules data anomaly_scores;
     log INFO MsgPipelineDone ;;
     ret selected_rules)
    (fun _ => true)
    (fun e => log ERROR (MsgPipelineFailed e) ;; raise e).

End pipeline.
End RiskMiningSystem.

(** ** What the specification says, where a property compares with it *)

Module Spec.
Import PyStr RuleEvaluator.
#[local] Open Scope Q_scope.

Fixpoint drop_digits (s : string) : string :=
  match s with
  | String c s' => if is_digit c then drop_digits s' else s
  | "" => ""
  end.

Fixpoint endswith (suffix s : string) : bool :=
  String.eqb suffix s ||
  match s with
  | "" => false
  | String _ s' => endswith suffix s'
  end.

(** The reserved statistical reference [Q<number>_<base>_industry]: the
    letter Q, at least one digit, an underscore, a non-empty base, and the
    ending [_industry]. *)
Definition reserved_pattern (v : string) : bool :=
  match v with
  | String "Q" rest =>
      head_is is_digit rest &&
      match drop_digits rest with
      | String "_" tail =>
          endswith "_industry" tail
          && (String.length "_industry" <? String.length tail)%nat
      | _ => false
      end
  | _ => false
  end.

(** [clamp01]: the value, brought into the interval from 0 to 1. *)
Definition clamp01 (v : Q) : Q := Qmax 0 (Qmin 1 v).

(** The five metrics of a [MetricSet], or one weight for each of them. *)
Record metric_set := MetricSet {
  coverage : Q;
  anomaly_lift : Q;
  stability : Q;
  specificity : Q;
  consistency : Q
}.

(** The sum of weight times clamped metric over the five metrics. *)
Definition weighted_sum (weight metric : metric_set) : Q :=
  coverage weight * clamp01 (coverage metric)
  + anomaly_lift weight * clamp01 (anomaly_lift metric)
  + stability weight * clamp01 (stability metric)
  + specificity weight * clamp01 (specificity metric)
  + consistency weight * clamp01 (consistency metric).

(** A [MetricSet] as the dictionary that the evaluator passes around. *)
Definition metrics_dict (m : metric_set) : pyval :=
  PDict (<["consistency" := PFloat (consistency m)]>
        (<["specificity" := PFloat (specificity m)]>
        (<["stability" := PFloat (stability m)]>
        (<["anomaly_lift" := PFloat (anomaly_lift m)]>
        (<["coverage" := PFloat (coverage m)]> ∅))))).

(** The weight that a weight mapping gives a metric, 0 when it names none. *)
Fixpoint weight_of (weights : list (string * Q)) (name : string) : Q :=
  match weights with
  | [] => 0
  | (n, w) :: weights' => if String.eqb n name then w else weight_of weights' name
  end.

Definition weights_of (weights : list (string * Q)) : metric_set :=
  MetricSet (weight_of weights "coverage") (weight_of weights "anomaly_lift")
    (weight_of weights "stability") (weight_of weights "specificity")
    (weight_of weights "consistency").

(** What the selector reads off an evaluated rule. *)
Definition rule_id (rule : pydict) : string :=
  match rule !! "id" with
  | Some (PStr s) => s
  | _ => ""
  end.

Definition overall_score (rule : pydict) : Q :=
  match as_number (get rule "overall_score" (PInt 0)) with
  | Some q => q
  | None => 0
  end.

Definition coverage_of (rule : pydict) : Q :=
  match rule !! "metrics" with
  | Some (PDict m) =>
      match as_number (get m "coverage" (PFloat 0)) with
      | Some q => q
      | None => 0
      end
  | _ => 0
  end.

(** The order of the specification: the higher score first, and of two
    equal scores the smaller rule id first. *)
Definition ranks_before (r1 r2 : pydict) : bool :=
  Qltb (overall_score r2) (overall_score r1)
  || (Qeq_bool (overall_score r1) (overall_score r2)
      && String.leb (rule_id r1) (rule_id r2)).

Fixpoint ranked (rules : list pydict) : bool :=
  match rules with
  | [] => true
  | r1 :: rest =>
      forallb (ranks_before r1) rest && ranked rest
  end.

(** [sorted] is the stable sort of [l] into descending order of [key]: the
    same elements, keys descending, and the elements of equal key in the
    order in which [l] has them. *)
Definition stable_sort_desc {A} (key : A -> Q) (l sorted : list A) : Prop :=
  sorted ≡ₚ l
  ∧ StronglySorted (fun a b => key b <= key a) sorted
  ∧ ∀ q, List.filter (fun a => Qeq_bool (key a) q) sorted
         = List.filter (fun a => Qeq_bool (key a) q) l.

(** The configuration of the selector, with the defaults of the code. *)
Definition top_n (config : pydict) : pyval := get config "top_n_rules" (PInt 10).
Definition min_coverage (config : pydict) : pyval :=
  get config "min_coverage" (PFloat (2 # 100)).
Definition max_coverage (config : pydict) : pyval :=
  get config "max_coverage" (PFloat (8 # 100)).

(** A configuration as section 6 of the specification has it:
    [top_n_rules] a non-negative integer ([n]), the bounds numbers. *)
Definition config_values (config : pydict) (n : nat) (low high : Q) : Prop :=
  top_n config = PInt (Z.of_nat n)
  ∧ as_number (min_coverage config) = Some low
  ∧ as_number (max_coverage config) = Some high.

Definition in_band (low high : Q) (rule : pydict) : bool :=
  Qle_bool low (coverage_of rule) && Qle_bool (coverage_of rule) high.

(** The names that the variable check lets pass: the words it filters out,
    the names that start with Q and hold an underscore, and the keys of
    [variables_used]. *)
Definition accepted_name (variables_used : pydict) (v : string) : Prop :=
  v ∈ RuleCompiler.keywords
  ∨ (startswith "Q" v ∧ contains "_" v)
  ∨ is_Some (variables_used !! v).

(** What the evaluation loop keeps of a compiled rule: the rule with its
    metrics, unless computing them raises. *)
Definition evaluated_rule (rule : pydict) (data : dataframe)
    (anomaly_scores : gmap string Q) : option pydict :=
  match _calculate_rule_metrics rule data anomaly_scores with
  | Ok metrics => Some (<["metrics" := PDict metrics]> rule)
  | _ => None
  end.

End Spec.

(** ** The expression grammar of section 4.1, and the texts of its phrases *)

Module Grammar.
Import PyStr PySyntax.

(** The tokens of the DSL of section 4.1. *)
Inductive dsl_token :=
| DNumber (int_part : string) (frac_part : option string)
| DIdent (name : string)
| DOp (op : string)
| DLpar
| DRpar
| DComma.

Definition binary_ops : list string :=
  ["*"; "/"; "+"; "-"; ">"; "<"; ">="; "<="; "=="; "&&"; "||"].

Definition is_sign (op : string) : bool := String.eqb op "-" || String.eqb op "+".
Definition is_negation (op : string) : bool := String.eqb op "!" || String.eqb op "not".
Definition is_logical (op : string) : bool := String.eqb op "&&" || String.eqb op "||".

Fixpoint all_chars (p : ascii -> bool) (s : string) : bool :=
  match s with
  | "" => true
  | String c s' => p c && all_chars p s'
  end.

(** Decimal literals: digits, with no leading zero before further digits,
    and an optional fraction of at least one digit. *)
Definition wf_number (int_part : string) (frac_part : option string) : bool :=
  (String.eqb int_part "0"
   || (head_is (fun c => is_digit c && negb (c =? "0")%char) int_part
       && all_chars is_digit int_part))
  && match frac_part with
     | None => true
     | Some f => head_is is_digit f && all_chars is_digit f
     end.

(** Identifiers match [[a-zA-Z_][a-zA-Z0-9_]*]; the words that Python
    reserves are left out. *)
Definition wf_ident (name : string) : bool :=
  head_is is_ident_start name && all_chars is_word name
  && negb (existsb (String.eqb name) ("and" :: "or" :: "not" :: other_keywords)).

(** The arity of the functions: one argument for [abs], at least two for
    [max] and [min]. *)
Definition arity_ok (f : string) (n : nat) : bool :=
  (String.eqb f "abs" && Nat.eqb n 1)
  || ((String.eqb f "max" || String.eqb f "min") && Nat.leb 2 n).

(** A phrase that opens with a negation. *)
Definition negated (ts : list dsl_token) : bool :=
  match ts with
  | DOp op :: _ => is_negation op
  | _ => false
  end.

Inductive phrase := Expr | Args (n : nat).

(** The expressions of the grammar, without the comparison [!=]: numbers,
    identifiers, parentheses, signs, negations, the binary operators, and
    calls of the three functions. A negation opens the whole expression,
    a parenthesis, an argument, the operand of a negation or the right
    operand of [&&] and [||]; it does not follow a sign or an arithmetic
    or comparison operator. Precedence and associativity decide how a text
    is read, not whether it is one, so the rules need not tell the levels
    apart. [Args n]: [n] expressions between commas. *)
Inductive derives : phrase -> list dsl_token -> Prop :=
| derives_number i f :
    wf_number i f = true -> derives Expr [DNumber i f]
| derives_ident x :
    wf_ident x = true -> derives Expr [DIdent x]
| derives_paren e :
    derives Expr e -> derives Expr (DLpar :: e ++ [DRpar])
| derives_signed op e :
    is_sign op = true -> derives Expr e -> negated e = false ->
    derives Expr (DOp op :: e)
| derives_negation op e :
    is_negation op = true -> derives Expr e -> derives Expr (DOp op :: e)
| derives_binary e1 op e2 :
    derives Expr e1 -> existsb (String.eqb op) binary_ops = true ->
    derives Expr e2 -> is_logical op || negb (negated e2) = true ->
    derives Expr (e1 ++ DOp op :: e2)
| derives_call f n args :
    arity_ok f n = true -> derives (Args n) args ->
    derives Expr (DIdent f :: DLpar :: args ++ [DRpar])
| derives_argument e :
    derives Expr e -> derives (Args 1) e
| derives_arguments e n args :
    derives Expr e -> derives (Args n) args ->
    derives (Args (S n)) (e ++ DComma :: args).

Definition dsl_text (t : dsl_token) : string :=
  match t with
  | DNumber i None => i
  | DNumber i (Some f) => i ++ "." ++ f
  | DIdent x => x
  | DOp op => op
  | DLpar => "("
  | DRpar => ")"
  | DComma => ","
  end.

Fixpoint blanks (n : nat) : string :=
  match n with
  | O => ""
  | S n' => String " " (blanks n')
  end.

(** A text of the DSL: its tokens, each with the number of blanks that
    follow it. *)
Abbreviation spaced := (list (dsl_token * nat)).

Fixpoint render_with (text : dsl_token -> string) (ts : spaced) : string :=
  match ts with
  | [] => ""
  | (t, n) :: ts' => text t ++ blanks n ++ render_with text ts'
  end.

Definition render : spaced -> string := render_with dsl_text.

(** The word [not] is set off from what follows it. *)
Definition blank_after_not (ts : spaced) : bool :=
  forallb (fun '(t, n) =>
             match t with
             | DOp op => negb (String.eqb op "not") || Nat.ltb 0 n
             | _ => true
             end) ts.

(** The text opens with [!]. *)
Definition opens_with_bang (ts : spaced) : bool :=
  match ts with
  | (DOp op, _) :: _ => String.eqb op "!"
  | _ => false
  end.

(** The translation of [_validate_dsl_syntax] and [_translate_to_python],
    on texts and token by token. *)
Definition translate (s : string) : string :=
  replace "!" " not " (replace "||" " or " (replace "&&" " and " s)).

Definition py_text (t : dsl_token) : string :=
  match t with
  | DOp op =>
      if String.eqb op "&&" then " and "
      else if String.eqb op "||" then " or "
      else if String.eqb op "!" then " not "
      else op
  | _ => dsl_text t
  end.

(** The token that Python reads from the translated text of a token. *)
Definition py_token (t : dsl_token) : token :=
  match t with
  | DNumber _ _ => TNumber
  | DIdent x => TName x
  | DOp op =>
      if String.eqb op "&&" then TAnd
      else if String.eqb op "||" then TOr
      else if is_negation op then TNot
      else if String.eqb op "*" then TStar
      else if String.eqb op "/" then TSlash
      else if is_sign op then TAdd
      else TCmp
  | DLpar => TLpar
  | DRpar => TRpar
  | DComma => TComma
  end.

(** The tokens that may stand in an expression, each well formed. *)
Definition wf_token (t : dsl_token) : bool :=
  match t with
  | DNumber i f => wf_number i f
  | DIdent x => wf_ident x
  | DOp op => existsb (String.eqb op) ("!" :: "not" :: binary_ops)
  | _ => true
  end.

(** A text without the characters that the replacements look for. *)
Definition plain (a : string) : Prop :=
  char_in "&" a = false ∧ char_in "|" a = false ∧ char_in "!" a = false.

(** The characters at which Python's tokenizer ends the token [t]. *)
Definition ends_at (t : dsl_token) (c : ascii) : bool :=
  match t with
  | DNumber _ _ => negb (is_digit c || (c =? ".")%char || is_ident_start c)
  | DIdent _ => negb (is_word c)
  | DOp op =>
      if String.eqb op "not" then negb (is_word c)
      else match op with
           | String c1 "" =>
               (c1 =? "!")%char
               || match two_char_op c1 c with None => true | Some _ => false end
           | _ => true
           end
  | _ => true
  end.

Definition ends (t : dsl_token) (s : string) : bool :=
  match s with
  | "" => true
  | String c _ => ends_at t c
  end.

(** No two neighbours of the translated text read as one token. *)
Fixpoint glued (ts : spaced) : bool :=
  match ts with
  | [] => true
  | (t, n) :: ts' => ends t (blanks n ++ render_with py_text ts') && glued ts'
  end.

(** How often a character stands in a text, a token in a list. *)
Fixpoint count_char (c : ascii) (s : string) : nat :=
  match s with
  | "" => 0
  | String b s' => (if (c =? b)%char then 1 else 0) + count_char c s'
  end.

Definition count_token (p : token -> bool) (ts : list token) : nat :=
  length (List.filter p ts).

Definition is_lpar (t : token) : bool := match t with TLpar => true | _ => false end.
Definition is_rpar (t : token) : bool := match t with TRpar => true | _ => false end.

(** The first [k] characters of [s] are not [c]. *)
Fixpoint clean_prefix (c : ascii) (k : nat) (s : string) : Prop :=
  match k, s with
  | S k', String b s' => (c =? b)%char = false ∧ clean_prefix c k' s'
  | _, _ => True
  end.

(** The parentheses among the tokens that the character [c] gives. *)
Definition same_parens (c : ascii) (out : list token) : Prop :=
  count_token is_lpar out = (if ("(" =? c)%char then 1 else 0)
  ∧ count_token is_rpar out = (if (")" =? c)%char then 1 else 0).

(** The characters that open an operator, a parenthesis or a comma, and
    those that open an operand, in the translated text. *)
Definition after_operand (c : ascii) : bool := char_in c "*/+-><=(), ".
Definition before_operand (c : ascii) : bool :=
  is_digit c || is_ident_start c || char_in c "(-+) ".

(** After this token the automaton expects an operand. *)
Definition operand_next (t : token) : bool :=
  match t with
  | TName _ | TNumber | TRpar => false
  | _ => true
  end.

(** The tokens that an expression can start with. *)
Definition opens_operand (t : dsl_token) : bool :=
  match t with
  | DNumber _ _ | DIdent _ | DLpar => true
  | DOp op => is_sign op || is_negation op
  | _ => false
  end.

(** A state from which the token [t] is given out as soon as the text is
    over or goes on with a character that [p] takes; the rest of the text
    is then read from the start. *)
Definition reads (st : lex_state) (t : token) (p : ascii -> bool) : Prop :=
  flush st = Ok [t] ∧ ∀ c, p c = true -> step st c = emit_then t c.

End Grammar.

(** ** Invariants of the evaluation pass *)

Module Invariants.
Import RuleEvaluator Spec.
#[local] Open Scope Q_scope.

(** A result that is a value or an exception. *)
Definition modelled {A} (r : result A) : Prop :=
  match r with
  | Unmodelled => False
  | _ => True
  end.

(** The value of a metric in a [MetricSet], by its name. *)
Definition metric_value (m : metric_set) (name : string) : option Q :=
  if String.eqb name "coverage" then Some (coverage m)
  else if String.eqb name "anomaly_lift" then Some (anomaly_lift m)
  else if String.eqb name "stability" then Some (stability m)
  else if String.eqb name "specificity" then Some (specificity m)
  else if String.eqb name "consistency" then Some (consistency m)
  else None.

(** What one entry of the weight mapping adds to the score. *)
Definition contribution (m : metric_set) (name : string) (weight : Q) : Q :=
  match metric_value m name with
  | Some v => clamp01 v * weight
  | None => 0
  end.

(** A rule after the first loop: it carries the five metrics. *)
Definition has_metrics (rule : pydict) : Prop :=
  ∃ m ms, rule !! "metrics" = Some (PDict m) ∧ PDict m = metrics_dict ms.

(** A rule after the second loop: evaluated, and scored with a number. *)
Definition is_scored (rule : pydict) : Prop :=
  has_metrics rule ∧ ∃ s, rule !! "overall_score" = Some (PFloat s).

End Invariants.

(** ** Rules, data and configurations for the closed examples *)

Module Examples.
Import RuleCompiler RuleEvaluator Grammar.
#[local] Open Scope Q_scope.

(** One order in which a set of names may be iterated: that of first
    occurrence. *)
Definition first_occurrence_order : list string -> list string := remove_dups.

Definition empty_state : state := State ∅ [].

(** What a run shows: its result and the log records it wrote. *)
Definition outcome {A} (run : result A * state) : result A * list log_record :=
  (run.1, logs run.2).

Definition rule_definition (id dsl : string) (variables : list string) : pydict :=
  list_to_map
    [("id", PStr id); ("rule_text", PStr "text"); ("dsl", PStr dsl);
     ("variables_used", PDict (list_to_map ((fun v => (v, PStr "description")) <$> variables)));
     ("period", PStr "annual"); ("industry_scope", PStr "all");
     ("expected_coverage", PInt 5); ("edge_cases", PList []);
     ("stats_source", PStr "statistics")].

(** The rule of the fallback generator, [src/rule_synthesis/rule_generator.py]. *)
Definition fallback_rule : pydict :=
  rule_definition "fallback" "a > 20 && g < Q25_g_industry" ["a"; "g"].

Definition division_rule : pydict := rule_definition "division" "x / y > 1" ["x"; "y"].
Definition literal_zero_rule : pydict := rule_definition "zero" "a / 0 > 1" ["a"].
Definition or_rule : pydict := rule_definition "either" "a > 0 || b > 0" ["a"; "b"].
Definition missing_variable_rule : pydict := rule_definition "positive" "a > 0" ["a"].
Definition undeclared_rule : pydict := rule_definition "undeclared" "a > z" ["a"].
Definition unequal_rule : pydict := rule_definition "unequal" "a != b" ["a"; "b"].

(** A rule whose [dsl] field holds [None]. *)
Definition untyped_rule : pydict :=
  <["dsl" := PNone]> (rule_definition "untyped" "a > 0" ["a"]).

Definition store_of (rules : list pydict) : state :=
  State (list_to_map (zip (Pos.of_nat <$> seq 1 (length rules)) rules)) [].

Definition always : predicate := fun _ => inr true.
Definition failing : predicate := fun _ => inl ZeroDivisionError.

Definition compiled (id : string) (execute_function : predicate) : pydict :=
  <["execute_function" := PFunc execute_function]> (rule_definition id "a > 0" ["a"]).

Definition one_company : dataframe := [("company", {[ "a" := CNum 1 ]})].

Definition wide_band : pydict :=
  list_to_map [("min_coverage", PFloat 0); ("max_coverage", PFloat 1)].

(** The text [a > 0 && !(abs(b - c) <= 1.5)], token by token. *)
Definition bounded_difference : spaced :=
  [(DIdent "a", 1); (DOp ">", 1); (DNumber "0" None, 1); (DOp "&&", 1);
   (DOp "!", 0); (DLpar, 0); (DIdent "abs", 0); (DLpar, 0); (DIdent "b", 1);
   (DOp "-", 1); (DIdent "c", 0); (DRpar, 1); (DOp "<=", 1);
   (DNumber "1" (Some "5"), 0); (DRpar, 0)]%nat.

End Examples.

(** ** [src/rule_synthesis/rule_generator.py]: the fallback rules *)

Module RuleGenerator.

(** The record that [_generate_fallback_rules] writes to the logger
    ['RuleGenerator']. *)
Inductive generator_message := MsgFallbackMethod.

(** The two risk points for which there is a fallback rule. *)
Definition early_revenue : string := "提前确认营业收入".
Definition inflated_revenue : string := "虚增营业收入".

Section generator.

(** [uuid.uuid4().hex] is random: [uuid4_hex k] is the text of the
    identifier drawn by the [k]-th call of the run. *)
Variable uuid4_hex : nat -> string.

Definition early_revenue_rule (risk_point : string) (drawn : nat) : pydict :=
  list_to_map
    [("id", PStr ("fallback_" ++ risk_point ++ "_" ++ substring 0 8 (uuid4_hex drawn)));
     ("rule_text",
      PStr "企业营业收入增长率显著高于销售商品和提供劳务收到的现金增长率，且差额超过行业均值。");
     ("dsl", PStr "(a - b) > (c - d) * 1.5 && a > 15");
     ("variables_used",
      PDict (list_to_map
               [("a", PStr "营业收入增长率(%)");
                ("b", PStr "销售商品和提供劳务收到的现金增长率(%)");
                ("c", PStr "行业营业收入增长率均值");
                ("d", PStr "行业销售商品和提供劳务收到的现金增长率均值")]));
     ("period", PStr "年度");
     ("industry_scope", PStr "全行业");
     ("expected_coverage", PInt 5);
     ("edge_cases",
      PList [PStr "企业处于快速扩张期"; PStr "季节性业务波动"; PStr "会计政策变更"]);
     ("stats_source", PStr "基于行业统计数据生成")].

Definition inflated_revenue_rule (risk_point : string) (drawn : nat) : pydict :=
  list_to_map
    [("id", PStr ("fallback_" ++ risk_point ++ "_" ++ substring 0 8 (uuid4_hex drawn)));
     ("rule_text",
      PStr "企业营业收入增长率高，但经营性现金流净额与营业收入比率显著低于行业均值。");
     ("dsl", PStr "a > 20 && g < Q25_g_industry");
     ("variables_used",
      PDict (list_to_map
               [("a", PStr "营业收入增长率(%)");
                ("g", PStr "经营性现金流净额/营业收入")]));
     ("period", PStr "年度");
     ("industry_scope", PStr "全行业");
     ("expected_coverage", PInt 4);
     ("edge_cases",
      PList [PStr "企业处于投入期"; PStr "重大资本支出"; PStr "行业周期性低谷"]);
     ("stats_source", PStr "基于行业统计数据生成")].

(** [a == b] for a value and a text: only a [str] equals a text. *)
Definition eq_text (v : pyval) (text : string) : bool :=
  match v with
  | PStr s => String.eqb s text
  | _ => false
  end.

(** The loop over [risk_points]; [drawn] counts the identifiers drawn so
    far. *)
Fixpoint fallback_loop (risk_points : list pyval) (drawn : nat) : list pydict * nat :=
  match risk_points with
  | [] => ([], drawn)
  | risk_point :: rest =>
      if eq_text risk_point early_revenue then
        let '(fallback_rules, drawn') := fallback_loop rest (S drawn) in
        (early_revenue_rule early_revenue drawn :: fallback_rules, drawn')
      else if eq_text risk_point inflated_revenue then
        let '(fallback_rules, drawn') := fallback_loop rest (S drawn) in
        (inflated_revenue_rule inflated_revenue drawn :: fallback_rules, drawn')
      else fallback_loop rest drawn
  end.

(** The records logged, the rules, and the number of identifiers drawn. *)
Definition _generate_fallback_rules (risk_points : list pyval)
    (variable_catalog stats_summary : pyval) (drawn : nat)
    : list (level * generator_message) * list pydict * nat :=
  let '(fallback_rules, drawn') := fallback_loop risk_points drawn in
  ([(INFO, MsgFallbackMethod)], fallback_rules, drawn').

End generator.
End RuleGenerator.

(** ** The notions in which the further properties are stated *)

Module Notions.
Import PyStr RuleCompiler RuleEvaluator Spec RuleGenerator.
#[local] Open Scope Q_scope.

(** The text of twice the character [c]. *)
Definition twice (c : ascii) : string := String c (String c "").

(** The fields of a rule of which [validate_rule] reads the value. *)
Definition fields_read : list string := ["id"; "dsl"; "variables_used"].

(** A computation that leaves the store alone and adds the records [new]
    to the log, whatever the state it starts from. *)
Definition writes {A} (m : M A) (r : result A) (new : list log_record) : Prop :=
  ∀ σ, m σ = (r, State (heap σ) (logs σ ++ new)).

(** What [validate_rule] adds to the log after the record that names the
    rule, by its result. *)
Definition verdict_records (r : result bool) (new : list log_record) : Prop :=
  match r with
  | Ok true => Forall (fun rec => rec.1 ≠ ERROR) new
               ∧ last new = Some (INFO, MsgValidationPassed)
  | Ok false =>
      (∃ field, new = [(ERROR, MsgMissingField field)])
      ∨ (∃ e, new = [(ERROR, MsgDslSyntaxError e); (ERROR, MsgDslSyntaxFailed)])
      ∨ (∃ v, new = [(ERROR, MsgUndefinedVariable v); (ERROR, MsgVariableCheckFailed)])
  | Raise e => new = [] ∧ (e = AttributeError ∨ e = TypeError)
  | Unmodelled => True
  end.

(** The rule object at [rule] is one that [validate_rule] turns down. *)
Definition rejected (set_order : list string -> list string) (σ : state) (rule : loc) : Prop :=
  ∃ fields, heap σ !! rule = Some fields
            ∧ (validate_rule set_order fields σ).1 = Ok false.

(** What a predicate does on one row of the data frame. *)
Definition fires (p : predicate) (entry : string * record) : bool :=
  match p (row_dict entry.1 entry.2) with
  | inr true => true
  | _ => false
  end.

(** The exception of the first row on which the predicate raises. *)
Fixpoint first_error (p : predicate) (data : dataframe) : option exn :=
  match data with
  | [] => None
  | entry :: data' =>
      match p (row_dict entry.1 entry.2) with
      | inl e => Some e
      | inr _ => first_error p data'
      end
  end.

(** The number of rows on which the predicate fires. *)
Definition hits (p : predicate) (data : dataframe) : nat :=
  length (List.filter (fires p) data).

(** The anomaly scores of the rows on which the predicate fires, for the
    companies that have one. *)
Definition hit_scores (p : predicate) (data : dataframe) (anomaly_scores : gmap string Q)
    : list Q :=
  omap (fun entry => if fires p entry then anomaly_scores !! entry.1 else None) data.

(** [list(anomaly_scores.values())] *)
Definition all_scores (anomaly_scores : gmap string Q) : list Q :=
  (map_to_list anomaly_scores).*2.

(** The sum of the weights of an evaluator. *)
Definition total_weight (self : evaluator) : Q :=
  foldr Qplus 0%Q (metric_weights self).*2.

(** The record that the evaluation loop writes for a rule whose metrics
    raise. *)
Definition failure_record (data : dataframe) (anomaly_scores : gmap string Q)
    (rule : pydict) : option log_record :=
  match _calculate_rule_metrics rule data anomaly_scores with
  | Raise e => Some (ERROR, MsgEvaluationFailed (get rule "id" unknown_id) e)
  | _ => None
  end.

(** [selected] is [rule] with its metrics and its score, and nothing else
    changed. *)
Definition selected_from (self : evaluator) (data : dataframe)
    (anomaly_scores : gmap string Q) (rule selected : pydict) : Prop :=
  ∃ metrics score,
    _calculate_rule_metrics rule data anomaly_scores = Ok metrics
    ∧ _calculate_overall_score self (PDict metrics) = Ok score
    ∧ selected = <["overall_score" := PFloat score]> (<["metrics" := PDict metrics]> rule).

(** [l[:z]] for an integer [z]: the first [z] elements, or all but the
    last [-z]. *)
Definition kept (z : Z) (len : nat) : nat :=
  if (0 <=? z)%Z then Z.to_nat z else Z.to_nat (Z.of_nat len + z).

(** The risk points that [_generate_fallback_rules] knows. *)
Definition recognised (risk_point : pyval) : bool :=
  eq_text risk_point early_revenue || eq_text risk_point inflated_revenue.

End Notions.

(** ** More rules, data and configurations for closed examples *)

Module Cases.
Import RuleEvaluator Spec Examples.
#[local] Open Scope Q_scope.

(** A predicate over column [a]: it fires where the value is positive. *)
Definition positive_a : predicate := fun row =>
  match row !! "a" with
  | Some (CNum q) => inr (Qltb 0 q)
  | _ => inr false
  end.

Definition three_companies : dataframe :=
  [("north", {[ "a" := CNum 1 ]}); ("south", {[ "a" := CNum (-1) ]});
   ("west", {[ "a" := CNum 2 ]})].

Definition three_scores : gmap string Q :=
  list_to_map [("north", 6 # 10); ("south", 2 # 10); ("west", 4 # 10)].

(** An evaluated rule of the given coverage. *)
Definition measured (id : string) (coverage : Q) : pydict :=
  <["metrics" := metrics_dict (MetricSet coverage 1 (8 # 10) (7 # 10) (6 # 10))]>
    (rule_definition id "a > 0" ["a"]).

(** A configuration that asks for all rules but the last. *)
Definition all_but_last : pydict := list_to_map [("top_n_rules", PInt (-1))].

(** Every call of [uuid.uuid4().hex] giving the same text. *)
Definition constant_hex : nat -> string := fun _ => "0123456789abcdef0123456789abcdef".

End Cases.

(** * Properties *)

Import PyStr PySyntax RuleCompiler RuleEvaluator RiskMiningSystem Spec Grammar Invariants
  Examples.
#[local] Arguments startswith : simpl never.
#[local] Arguments contains : simpl never.

Ltac run :=
  unfold bind, ret, lift, log, raise, try_except, deref, alloc, setitem, getitem; simpl.

(** ** Strings *)

Section strings.

Lemma char_in_cons c b s :
  char_in c (String b s) = (c =? b)%char || char_in c s.
Proof.
  unfold char_in, contains, startswith. fold contains. fold startswith.
  destruct s; by rewrite ?andb_true_r.
Qed.

Lemma char_in_app c s1 s2 :
  char_in c (s1 ++ s2) = char_in c s1 || char_in c s2.
Proof.
  induction s1 as [|b s1 IH]; [done|].
  change (String b s1 ++ s2) with (String b (s1 ++ s2)).
  by rewrite !char_in_cons, IH, orb_assoc.
Qed.

Lemma char_in_replace_from c old new k s :
  char_in c new = false -> char_in c s = false ->
  char_in c (replace_from old new k s) = false.
Proof.
  intros Hnew. revert k. induction s as [|b s IH]; intros k Hs; [done|].
  rewrite char_in_cons in Hs. apply orb_false_elim in Hs as [Hb Hs].
  simpl. destruct k as [|k]; [|by apply IH].
  destruct (startswith old (String b s)).
  - rewrite char_in_app, Hnew. by apply IH.
  - rewrite char_in_cons, Hb. by apply IH.
Qed.

Lemma append_cons c (a b : string) : String c a ++ b = String c (a ++ b).
Proof. reflexivity. Qed.

Lemma append_nil_l (a : string) : "" ++ a = a.
Proof. reflexivity. Qed.

Lemma append_assoc (a b c : string) : (a ++ b) ++ c = a ++ (b ++ c).
Proof. induction a as [|x a IH]; [done|]. by rewrite !append_cons, IH. Qed.

Lemma append_nil_r (a : string) : a ++ "" = a.
Proof. induction a as [|x a IH]; [done|]. by rewrite append_cons, IH. Qed.

End strings.

(** ** The predicate builder *)

Section predicate_builder.

(** Whatever the expression, the generated text opens with a blank line
    and a [def] that is indented by eight blanks. *)
Lemma func_code_indented expr :
  first_logical_line false (func_code expr) = Indented.
Proof. reflexivity. Qed.

Lemma func_code_nul expr :
  char_in "000" (func_code expr) = char_in "000" expr.
Proof.
  unfold func_code, func_code_lines, join_lines.
  repeat (rewrite char_in_app; simpl).
  by destruct (char_in "000" expr).
Qed.

Lemma py_parse_func_code expr :
  py_parse (func_code expr) =
    if char_in "000" expr then Unmodelled else Raise IndentationError.
Proof.
  unfold py_parse. rewrite func_code_nul, func_code_indented. done.
Qed.

(** C1 (the code departs from it). The claim is about the predicates that
    compilation produces. It produces none: for every translated
    expression, [_create_execution_function] hands [exec] a text whose
    [def] line is indented, so the call raises [IndentationError] instead
    of returning the predicate (a text with a NUL character is outside the
    model). *)
Theorem create_execution_function_builds_no_predicate expr variables_used :
  _create_execution_function (PStr expr) variables_used =
    if char_in "000" expr then Unmodelled else Raise IndentationError.
Proof.
  unfold _create_execution_function. rewrite py_parse_func_code.
  by destruct (char_in "000" expr).
Qed.

Lemma create_execution_function_no_value python_expr variables_used :
  _create_execution_function python_expr variables_used = Unmodelled
  ∨ _create_execution_function python_expr variables_used = Raise IndentationError.
Proof.
  destruct python_expr; try (by left).
  unfold _create_execution_function. rewrite py_parse_func_code.
  destruct (char_in _ _); auto.
Qed.

Lemma fresh_loc_ne (h : gmap loc pydict) rule fields :
  h !! rule = Some fields -> fresh (dom h) ≠ rule.
Proof.
  intros Hin Heq. apply (is_fresh (dom h)). rewrite Heq.
  apply elem_of_dom. eauto.
Qed.



(** C2 (the code departs from it). The rule [x / y > 1] passes validation,
    and compiling it raises [IndentationError]: there is no predicate that
    could meet a zero denominator. *)
Theorem division_rule_is_never_compiled :
  outcome (validate_rule first_occurrence_order division_rule empty_state)
    = (Ok true, [(INFO, MsgValidating (PStr "division")); (INFO, MsgValidationPassed)])
  ∧ outcome (compile_rule 1 (store_of [division_rule]))
    = (Raise IndentationError, [(INFO, MsgCompiling (PStr "division"))]).
Proof. split; vm_compute; reflexivity. Qed.

(** C3 (the code departs from it). The rule [a > 0 || b > 0] is translated
    to an expression with Python's [or], passes validation, and compiling
    it raises [IndentationError]: no predicate returns true on a record
    that lacks [b]. *)
Theorem or_rule_is_never_compiled :
  _translate_to_python (PStr "a > 0 || b > 0") = Ok (PStr "a > 0  or  b > 0")
  ∧ outcome (validate_rule first_occurrence_order or_rule empty_state)
    = (Ok true, [(INFO, MsgValidating (PStr "either")); (INFO, MsgValidationPassed)])
  ∧ outcome (compile_rule 1 (store_of [or_rule]))
    = (Raise IndentationError, [(INFO, MsgCompiling (PStr "either"))]).
Proof. repeat split; vm_compute; reflexivity. Qed.

End predicate_builder.

(** ** Validation *)

Section validation.
Variable set_order : list string -> list string.

(** C4 (amended). A literal zero after the slash does not make validation
    fail. When the required fields are there and the syntax and variable
    checks pass, [validate_rule] returns [True] whatever
    [_has_division_by_zero_risk] finds; a finding only adds a WARNING
    record to the log. *)
Theorem validation_accepts_despite_division_risk
    rule dsl variables_used risk σ σ1 σ2 :
  missing_field required_fields rule = None ->
  rule !! "dsl" = Some dsl ->
  rule !! "variables_used" = Some variables_used ->
  _validate_dsl_syntax dsl
    (State (heap σ) (logs σ ++ [(INFO, MsgValidating (get rule "id" unknown_id))]))
    = (Ok true, σ1) ->
  _validate_variable_references set_order dsl variables_used σ1 = (Ok true, σ2) ->
  _has_division_by_zero_risk dsl = Ok risk ->
  validate_rule set_order rule σ =
    (Ok true,
     State (heap σ2)
       (logs σ2 ++ (if risk then [(WARNING, MsgDivisionByZeroRisk)] else [])
               ++ [(INFO, MsgValidationPassed)])).
Proof.
  intros Hfields Hdsl Hvu Hsyntax Hrefs Hrisk.
  unfold validate_rule. rewrite Hfields. run.
  rewrite Hdsl. simpl. rewrite Hsyntax. simpl.
  rewrite Hvu. simpl. rewrite Hrefs. simpl. rewrite Hrisk.
  destruct risk; simpl; [|done].
  by rewrite <- app_assoc.
Qed.

Lemma check_variables_cons variables_used var vars :
  check_variables variables_used (var :: vars) =
    if startswith "Q" var && contains "_" var
    then check_variables variables_used vars
    else
      (declared ← lift (py_in var variables_used);
       if declared then check_variables variables_used vars
       else log ERROR (MsgUndefinedVariable var) ;; ret false)%py.
Proof. reflexivity. Qed.

Lemma check_variables_passes d vars σ :
  (∀ v, v ∈ vars -> (startswith "Q" v ∧ contains "_" v) ∨ is_Some (d !! v)) ->
  check_variables (PDict d) vars σ = (Ok true, σ).
Proof.
  induction vars as [|v vars IH]; intros Hall; [done|].
  rewrite check_variables_cons.
  assert (Hvars : ∀ w, w ∈ vars ->
            (startswith "Q" w ∧ contains "_" w) ∨ is_Some (d !! w)).
  { intros w Hw. apply Hall. by right. }
  destruct (Hall v) as [[HQ Hu] | Hd]; [by left | |].
  - apply Is_true_true in HQ, Hu. rewrite HQ, Hu. by apply IH.
  - destruct (startswith "Q" v && contains "_" v); [by apply IH|].
    run. rewrite bool_decide_true by done. by apply IH.
Qed.

Lemma check_variables_fails d vars σ :
  (∃ v, v ∈ vars ∧ ¬ ((startswith "Q" v ∧ contains "_" v) ∨ is_Some (d !! v))) ->
  ∃ v, v ∈ vars ∧ ¬ ((startswith "Q" v ∧ contains "_" v) ∨ is_Some (d !! v))
       ∧ check_variables (PDict d) vars σ =
           (Ok false, State (heap σ) (logs σ ++ [(ERROR, MsgUndefinedVariable v)])).
Proof.
  induction vars as [|w vars IH]; intros (v & Hv & Hbad).
  { by apply elem_of_nil in Hv. }
  rewrite check_variables_cons.
  destruct (startswith "Q" w && contains "_" w) eqn:HQ.
  - apply elem_of_cons in Hv as [-> | Hv].
    { exfalso. apply Hbad. left. apply andb_true_iff in HQ as [-> ->]. done. }
    destruct IH as (u & Hu & Hubad & Hrun); [by eauto|].
    exists u. split_and!; [by right | done | done].
  - run. destruct (decide (is_Some (d !! w))) as [Hd | Hd].
    + rewrite bool_decide_true by done.
      apply elem_of_cons in Hv as [-> | Hv].
      { exfalso. apply Hbad. by right. }
      destruct IH as (u & Hu & Hubad & Hrun); [by eauto|].
      exists u. split_and!; [by right | done | done].
    + rewrite bool_decide_false by done.
      exists w. split_and!; [by left | | done].
      intros [[H1 H2] | H3]; [|done].
      apply Is_true_true in H1, H2. by rewrite H1, H2 in HQ.
Qed.

Lemma allowed_functions_keywords v : v ∈ allowed_functions -> v ∈ keywords.
Proof.
  unfold allowed_functions, keywords. rewrite !elem_of_cons, !elem_of_nil.
  intros [-> | [-> | [-> | []]]]; auto 10.
Qed.

(** However the set of names is iterated, it is run through in full. *)
Hypothesis set_order_elements : ∀ l x, x ∈ set_order l ↔ x ∈ l.

(** C6 (amended). The variable check returns [True] exactly when every
    identifier that the pattern finds in the DSL is one of the filtered
    words ([and], [or], [not], [True], [False], [abs], [max], [min]),
    starts with Q and holds an underscore, or is a key of
    [variables_used]. Otherwise it returns [False] (it raises nothing)
    after one ERROR record that names an identifier that is none of
    these. *)
Theorem variable_check_accepts_declared_Q_prefixed_and_keywords s d σ ids :
  findall_identifiers s = Ok ids ->
  ∃ verdict σ',
    _validate_variable_references set_order (PStr s) (PDict d) σ = (Ok verdict, σ')
    ∧ (verdict = true ↔ ∀ v, v ∈ ids -> accepted_name d v)
    ∧ (verdict = true -> σ' = σ)
    ∧ (verdict = false ->
       ∃ v, v ∈ ids ∧ ¬ accepted_name d v
            ∧ σ' = State (heap σ) (logs σ ++ [(ERROR, MsgUndefinedVariable v)])).
Proof.
  intros Hids. unfold _validate_variable_references. run. rewrite Hids. simpl.
  set (vars := set_order _).
  assert (Hvars : ∀ v, v ∈ vars ↔ v ∈ ids ∧ v ∉ keywords).
  { intros v. unfold vars. rewrite set_order_elements, list_elem_of_filter.
    split.
    - intros [[Hk _] Hv]. done.
    - intros [Hv Hk]. split; [split; [done|]|done].
      intros Hf. by apply Hk, allowed_functions_keywords. }
  destruct (decide (Forall (fun v => (startswith "Q" v ∧ contains "_" v)
                                     ∨ is_Some (d !! v)) vars))
    as [Hall | Hnot]; [rewrite Forall_forall in Hall|].
  - rewrite check_variables_passes by done.
    exists true, σ. split_and!; [done | | done | done].
    split; [|done]. intros _ v Hv. unfold accepted_name.
    destruct (decide (v ∈ keywords)); [by left|]. right. apply Hall, Hvars. done.
  - apply not_Forall_Exists, Exists_exists in Hnot; [|apply _].
    destruct (check_variables_fails d vars σ) as (u & Hu & Hbad & Hrun).
    { destruct Hnot as (x & Hx & Hxbad). by exists x. }
    apply Hvars in Hu as [Hu Hk].
    assert (Hacc : ¬ accepted_name d u).
    { intros [? | ?]; [done | by apply Hbad]. }
    rewrite Hrun.
    exists false, (State (heap σ) (logs σ ++ [(ERROR, MsgUndefinedVariable u)])).
    split_and!; [done | | done | by eauto].
    split; [done|]. intros Hall. exfalso. by apply Hacc, Hall.
Qed.

End validation.

(** C4, the claim as it stands: the rule [a / 0 > 1] is accepted, with a
    warning in the log. *)
Lemma literal_zero_divisor_is_accepted :
  _has_division_by_zero_risk (PStr "a / 0 > 1") = Ok true
  ∧ outcome (validate_rule first_occurrence_order literal_zero_rule empty_state)
    = (Ok true,
       [(INFO, MsgValidating (PStr "zero")); (WARNING, MsgDivisionByZeroRisk);
        (INFO, MsgValidationPassed)]).
Proof. split; vm_compute; reflexivity. Qed.

Lemma validation_accepts_despite_division_risk_witness :
  validate_rule first_occurrence_order literal_zero_rule empty_state =
    (Ok true,
     State ∅
       ([(INFO, MsgValidating (PStr "zero"))]
        ++ [(WARNING, MsgDivisionByZeroRisk)] ++ [(INFO, MsgValidationPassed)])).
Proof.
  apply (validation_accepts_despite_division_risk first_occurrence_order
           literal_zero_rule (PStr "a / 0 > 1")
           (PDict (list_to_map [("a", PStr "description")])) true empty_state
           (State ∅ [(INFO, MsgValidating (PStr "zero"))])
           (State ∅ [(INFO, MsgValidating (PStr "zero"))]));
    reflexivity.
Defined.

(** C6, the claim as it stands: [Q_x] is no key of [variables_used] and
    does not have the reserved form, and the check lets it pass. *)
Lemma Q_prefixed_name_is_accepted :
  reserved_pattern "Q_x" = false
  ∧ reserved_pattern "Q75_e_industry" = true
  ∧ outcome (_validate_variable_references first_occurrence_order
               (PStr "Q_x > 1") (PDict ∅) empty_state)
    = (Ok true, []).
Proof. repeat split; vm_compute; reflexivity. Qed.

(** The theorem at scenario 3 of the specification: [z] is not declared. *)
Lemma variable_check_witness :
  ∃ verdict σ',
    _validate_variable_references first_occurrence_order (PStr "a > z")
      (PDict {[ "a" := PStr "description" ]}) empty_state = (Ok verdict, σ')
    ∧ (verdict = true ↔ ∀ v, v ∈ ["a"; "z"] -> accepted_name {[ "a" := PStr "description" ]} v)
    ∧ (verdict = true -> σ' = empty_state)
    ∧ (verdict = false ->
       ∃ v, v ∈ ["a"; "z"] ∧ ¬ accepted_name {[ "a" := PStr "description" ]} v
            ∧ σ' = State (heap empty_state)
                     (logs empty_state ++ [(ERROR, MsgUndefinedVariable v)])).
Proof.
  apply (variable_check_accepts_declared_Q_prefixed_and_keywords first_occurrence_order).
  - intros l x. apply elem_of_remove_dups.
  - reflexivity.
Defined.

(** ** The scorer *)

Section scorer.
#[local] Open Scope Q_scope.

Lemma Qltb_true x y : Qltb x y = true ↔ x < y.
Proof.
  unfold Qltb. rewrite negb_true_iff, <- not_true_iff_false, Qle_bool_iff.
  split; [apply Qnot_le_lt | apply Qlt_not_le].
Qed.

Lemma Qltb_false x y : Qltb x y = false ↔ y <= x.
Proof. unfold Qltb. by rewrite negb_false_iff, Qle_bool_iff. Qed.

(** The code's [max(0.0, min(1.0, value))] is the clamp of the specification. *)
Lemma py_clamp_is_clamp01 v : py_max 0 (py_min 1 v) == clamp01 v.
Proof.
  unfold py_max, py_min, clamp01.
  destruct (Qltb v 1) eqn:H1.
  - apply Qltb_true in H1. rewrite (Q.min_r 1 v) by by apply Qlt_le_weak.
    destruct (Qltb 0 v) eqn:H0.
    + apply Qltb_true in H0. by rewrite Q.max_r by by apply Qlt_le_weak.
    + apply Qltb_false in H0. by rewrite Q.max_l.
  - apply Qltb_false in H1. rewrite (Q.min_l 1 v) by done.
    change (Qltb 0 1) with true. by rewrite Q.max_r.
Qed.

Lemma clamp01_bounds v : 0 <= clamp01 v ∧ clamp01 v <= 1.
Proof.
  unfold clamp01. split; [apply Q.le_max_l|].
  apply Q.max_lub; [done | apply Q.le_min_l].
Qed.

Lemma clamp01_id v : 0 <= v -> v <= 1 -> clamp01 v == v.
Proof.
  intros H0 H1. unfold clamp01. rewrite Q.min_r by done. by rewrite Q.max_r.
Qed.

Lemma metrics_dict_lookup m name d :
  metrics_dict m = PDict d -> d !! name = PFloat <$> metric_value m name.
Proof.
  intros [= <-]. unfold metric_value.
  repeat match goal with
         | |- context [String.eqb name ?k] =>
             destruct (String.eqb_spec name k) as [-> | ?]; [reflexivity|]
         end.
  rewrite !lookup_insert_ne by congruence. by rewrite lookup_empty.
Qed.

Lemma add_weighted_sum m weights acc :
  ∃ score, add_weighted weights (metrics_dict m) acc = Ok score
    ∧ score == acc + foldr (fun '(n, w) s => contribution m n w + s) 0 weights.
Proof.
  revert acc. induction weights as [|[n w] weights IH]; intros acc.
  { exists acc. split; [done|]. simpl. ring. }
  cbn [add_weighted foldr]. unfold metrics_dict at 1 2. cbn [py_in rbind subscript].
  rewrite (metrics_dict_lookup m n _ eq_refl). unfold contribution at 1.
  destruct (metric_value m n) as [v|]; simpl.
  - destruct (IH (acc + py_max 0 (py_min 1 v) * w)) as (score & -> & Hscore).
    exists score. split; [done|]. rewrite Hscore, py_clamp_is_clamp01. ring.
  - destruct (IH acc) as (score & -> & Hscore).
    exists score. split; [done|]. rewrite Hscore. ring.
Qed.

Lemma weight_of_absent weights name : name ∉ weights.*1 -> weight_of weights name = 0.
Proof.
  induction weights as [|[n w] weights IH]; [done|]. simpl.
  intros Hnot. apply not_elem_of_cons in Hnot as [Hne Hnot].
  destruct (String.eqb_spec n name); [congruence | by apply IH].
Qed.

Lemma weighted_sum_cons m n w weights :
  n ∉ weights.*1 ->
  weighted_sum (weights_of ((n, w) :: weights)) m
  == contribution m n w + weighted_sum (weights_of weights) m.
Proof.
  intros Hnot. pose proof (weight_of_absent _ _ Hnot) as H0.
  unfold weighted_sum, weights_of, contribution, metric_value. cbn [weight_of coverage anomaly_lift stability specificity consistency].
  repeat match goal with
         | |- context [String.eqb n ?k] =>
             destruct (String.eqb_spec n k) as [-> | ?]; [rewrite H0; cbn; ring|]
         end.
  ring.
Qed.



End scorer.

(** ** The sort *)

Section sorting.
#[local] Open Scope Q_scope.
Context {A : Type} (key : A -> Q).

Lemma insert_desc_perm x l : insert_desc key x l ≡ₚ x :: l.
Proof.
  induction l as [|y l IH]; [done|]. simpl.
  destruct (Qltb (key x) (key y)); [|done].
  rewrite IH. apply perm_swap.
Qed.

Lemma sort_desc_perm l : sort_desc key l ≡ₚ l.
Proof.
  induction l as [|x l IH]; [done|]. simpl.
  by rewrite insert_desc_perm, IH.
Qed.

Lemma insert_desc_sorted x l :
  StronglySorted (fun a b => key b <= key a) l ->
  StronglySorted (fun a b => key b <= key a) (insert_desc key x l).
Proof.
  induction l as [|y l IH]; intros Hs; simpl.
  { repeat constructor. }
  apply StronglySorted_inv in Hs as [Hl Hy].
  destruct (Qltb (key x) (key y)) eqn:Hlt.
  - apply Qltb_true in Hlt. constructor; [by apply IH|].
    rewrite insert_desc_perm. constructor; [by apply Qlt_le_weak | done].
  - apply Qltb_false in Hlt. constructor; [by constructor|].
    constructor; [done|].
    eapply Forall_impl; [exact Hy|]. intros z Hz. simpl in *.
    exact (Qle_trans _ _ _ Hz Hlt).
Qed.

Lemma sort_desc_sorted l :
  StronglySorted (fun a b => key b <= key a) (sort_desc key l).
Proof.
  induction l as [|x l IH]; simpl; [constructor | by apply insert_desc_sorted].
Qed.

Lemma insert_desc_filter q x l :
  List.filter (fun a => Qeq_bool (key a) q) (insert_desc key x l)
  = List.filter (fun a => Qeq_bool (key a) q) (x :: l).
Proof.
  induction l as [|y l IH]; [done|].
  cbn [insert_desc]. destruct (Qltb (key x) (key y)) eqn:Hlt; [|done].
  apply Qltb_true in Hlt.
  cbn [List.filter] in *. rewrite IH.
  destruct (Qeq_bool (key x) q) eqn:Hx, (Qeq_bool (key y) q) eqn:Hy; try done.
  apply Qeq_bool_iff in Hx, Hy. rewrite Hx, Hy in Hlt.
  by apply Qlt_irrefl in Hlt.
Qed.

Lemma sort_desc_filter q l :
  List.filter (fun a => Qeq_bool (key a) q) (sort_desc key l)
  = List.filter (fun a => Qeq_bool (key a) q) l.
Proof.
  induction l as [|x l IH]; [done|].
  cbn [sort_desc]. rewrite insert_desc_filter. cbn [List.filter]. by rewrite IH.
Qed.

(** The insertion sort is the stable sort into descending order. *)
Lemma sort_desc_stable l : stable_sort_desc key l (sort_desc key l).
Proof.
  split_and!; [apply sort_desc_perm | apply sort_desc_sorted | intros; apply sort_desc_filter].
Qed.

End sorting.

Section decorated.
#[local] Open Scope Q_scope.
Context {A : Type} (key : A -> Q).

Lemma insert_desc_decorated (x : Q * A) l :
  Forall (fun p => p.1 = key p.2) (x :: l) ->
  (insert_desc fst x l).*2 = insert_desc key x.2 l.*2.
Proof.
  intros Hall. apply Forall_cons in Hall as [Hx Hl].
  induction l as [|y l IH]; [done|].
  apply Forall_cons in Hl as [Hy Hl].
  cbn [insert_desc fmap list_fmap]. rewrite Hx, Hy.
  destruct (Qltb _ _); [|done].
  cbn [fmap list_fmap]. by rewrite <- IH.
Qed.

(** Sorting the rules under their keys is sorting them by the key. *)
Lemma sort_desc_decorated (l : list (Q * A)) :
  Forall (fun p => p.1 = key p.2) l ->
  (sort_desc fst l).*2 = sort_desc key l.*2.
Proof.
  induction l as [|x l IH]; intros Hall; [done|].
  apply Forall_cons in Hall as [Hx Hl].
  cbn [sort_desc fmap list_fmap]. rewrite insert_desc_decorated.
  - by rewrite IH.
  - constructor; [done|]. by rewrite sort_desc_perm.
Qed.
End decorated.

(** ** The evaluation pass *)

Section evaluation.
#[local] Open Scope Q_scope.

Lemma modelled_rbind {A B} (r : result A) (k : A -> result B) :
  modelled r -> (∀ a, modelled (k a)) -> modelled (rbind r k).
Proof. destruct r; simpl; auto. Qed.

Lemma py_call_modelled f row : modelled (py_call f row).
Proof. destruct f; simpl; try done. by destruct (f row). Qed.

Lemma count_hits_modelled f data n : modelled (count_hits f data n).
Proof.
  revert n. induction data as [|[name row] data IH]; intros n; [done|].
  simpl. apply modelled_rbind; [apply py_call_modelled | intros; apply IH].
Qed.

Lemma collect_hit_scores_modelled f data scores acc :
  modelled (collect_hit_scores f data scores acc).
Proof.
  revert acc. induction data as [|[name row] data IH]; intros acc; [done|].
  simpl. apply modelled_rbind; [apply py_call_modelled | intros; apply IH].
Qed.

Lemma calculate_coverage_modelled rule data : modelled (_calculate_coverage rule data).
Proof.
  unfold _calculate_coverage. destruct (negb _); [done|].
  apply modelled_rbind; [apply count_hits_modelled | done].
Qed.

Lemma calculate_anomaly_lift_modelled rule data scores :
  modelled (_calculate_anomaly_lift rule data scores).
Proof.
  unfold _calculate_anomaly_lift. destruct (negb _); [done|].
  apply modelled_rbind; [apply collect_hit_scores_modelled |].
  intros hits. by destruct hits, (map_to_list scores).*2.
Qed.

(** The metrics of a rule are the five of a [MetricSet], unless computing
    them raises. *)
Lemma calculate_rule_metrics_cases rule data scores :
  (∃ m, _calculate_rule_metrics rule data scores = Ok m
        ∧ ∃ ms, PDict m = metrics_dict ms)
  ∨ (∃ e, _calculate_rule_metrics rule data scores = Raise e).
Proof.
  unfold _calculate_rule_metrics.
  pose proof (calculate_coverage_modelled rule data) as Hc.
  destruct (_calculate_coverage rule data) as [c|e|]; [|right; by eauto|done].
  pose proof (calculate_anomaly_lift_modelled rule data scores) as Hl.
  destruct (_calculate_anomaly_lift rule data scores) as [l|e|]; [|right; by eauto|done].
  left. eexists. split; [done|].
  by exists (MetricSet c l (_calculate_stability rule data) (_calculate_specificity rule)
            (_calculate_industry_consistency rule data)).
Qed.

Lemma evaluate_rules_keeps_the_rules_that_evaluate rules data scores σ :
  ∃ σ', evaluate_rules rules data scores σ
        = (Ok (omap (fun rule => evaluated_rule rule data scores) rules), σ')
        ∧ heap σ' = heap σ.
Proof.
  revert σ. induction rules as [|rule rules IH]; intros σ.
  { by exists σ. }
  cbn [evaluate_rules omap list_omap]. unfold evaluated_rule at 1. run.
  destruct (calculate_rule_metrics_cases rule data scores)
    as [(m & -> & _) | (e & ->)]; simpl.
  - destruct (IH σ) as (σ' & -> & Hheap). by exists σ'.
  - destruct (IH (State (heap σ) (logs σ ++ [(ERROR, MsgEvaluationFailed (get rule "id" unknown_id) e)])))
      as (σ' & -> & Hheap). by exists σ'.
Qed.

Lemma evaluated_rules_have_metrics rules data scores :
  Forall has_metrics (omap (fun rule => evaluated_rule rule data scores) rules).
Proof.
  induction rules as [|rule rules IH]; [constructor|].
  cbn [omap list_omap]. unfold evaluated_rule at 1.
  destruct (calculate_rule_metrics_cases rule data scores)
    as [(m & -> & ms & Hms) | (e & ->)]; [|done].
  constructor; [|done]. exists m, ms. by rewrite lookup_insert_eq.
Qed.

Lemma score_rules_total self evaluated :
  Forall has_metrics evaluated ->
  ∃ scored, score_rules self evaluated = Ok scored ∧ Forall is_scored scored
            ∧ length scored = length evaluated.
Proof.
  induction 1 as [|rule rules (m & ms & Hm & Hms) _ (scored & IH & Hscored & Hlen)].
  { by exists []. }
  cbn [score_rules subscript rbind]. rewrite Hm. simpl. rewrite Hms.
  unfold _calculate_overall_score.
  destruct (add_weighted_sum ms (metric_weights self) 0) as (s & -> & _). simpl.
  rewrite IH. simpl. eexists. split; [done|]. split; [|simpl; by rewrite Hlen].
  constructor; [|done]. split.
  - exists m, ms. by rewrite lookup_insert_ne.
  - exists s. by rewrite lookup_insert_eq.
Qed.

Lemma with_keys_scored scored :
  Forall is_scored scored ->
  with_keys scored = Ok ((fun rule => (overall_score rule, rule)) <$> scored).
Proof.
  induction 1 as [|rule rules (_ & s & Hs) _ IH]; [done|].
  cbn [with_keys]. unfold get. rewrite Hs. cbn [as_number]. rewrite IH. cbn [rbind fmap list_fmap].
  unfold overall_score at 2, get. rewrite Hs. done.
Qed.

Lemma sort_by_overall_score_scored scored :
  Forall is_scored scored ->
  sort_by_overall_score scored = Ok (sort_desc overall_score scored).
Proof.
  intros Hscored. unfold sort_by_overall_score.
  rewrite with_keys_scored by done. simpl. f_equal.
  rewrite (sort_desc_decorated overall_score).
  - by rewrite <- list_fmap_compose, list_fmap_id.
  - by apply Forall_fmap, Forall_true.
Qed.

Lemma filter_by_coverage_in_band lo hi low high rules :
  as_number lo = Some low -> as_number hi = Some high ->
  Forall has_metrics rules ->
  filter_by_coverage lo hi rules = Ok (List.filter (in_band low high) rules).
Proof.
  intros Hlo Hhi. induction 1 as [|rule rules (m & ms & Hm & Hms) _ IH]; [done|].
  cbn [filter_by_coverage subscript rbind List.filter]. rewrite Hm. simpl.
  rewrite IH. unfold in_band, coverage_of. rewrite Hm.
  pose proof (metrics_dict_lookup ms "coverage" m (eq_sym Hms)) as Hc. simpl in Hc.
  unfold get. rewrite Hc. unfold py_le. rewrite Hlo, Hhi. simpl.
  destruct (Qle_bool low (coverage ms)); simpl; [|done].
  by destruct (Qle_bool (coverage ms) high).
Qed.

Lemma slice_to_nat {A} (l : list A) n : slice_to l (PInt (Z.of_nat n)) = Ok (take n l).
Proof.
  unfold slice_to. rewrite (proj2 (Z.leb_le 0 (Z.of_nat n))) by lia.
  by rewrite Nat2Z.id.
Qed.

Lemma select_optimal_rules_spec self rules n low high :
  config_values (config self) n low high ->
  Forall has_metrics rules ->
  _select_optimal_rules self rules = Ok (List.filter (in_band low high) (take n rules)).
Proof.
  intros (Hn & Hlo & Hhi) Hrules. unfold _select_optimal_rules.
  fold (top_n (config self)). rewrite Hn, slice_to_nat. simpl.
  apply filter_by_coverage_in_band; [done | done |].
  by apply Forall_take.
Qed.


End evaluation.



(** ** The pipeline *)

Section pipeline.
Variable set_order : list string -> list string.


End pipeline.



(** ** The syntax check *)

Ltac each_char c :=
  destruct c as [[] [] [] [] [] [] [] []]; try discriminate; try reflexivity.

Ltac lex := repeat (progress (simpl; rewrite ?append_cons, ?append_nil_l)).

Ltac each_operator H :=
  apply existsb_exists in H as (? & H & ->%String.eqb_eq);
  unfold binary_ops in H;
  repeat (destruct H as [<- | H]; [|]); [..| done].

(** *** The automaton on the phrases of the grammar *)

Section grammar.

Lemma parse_tokens_binary_op op depth rest :
  existsb (String.eqb op) binary_ops = true ->
  parse_tokens depth Operator (py_token (DOp op) :: rest)
  = parse_tokens depth (Operand false (negb (is_logical op))) rest.
Proof.
  intros (o & Ho & ->%String.eqb_eq)%existsb_exists. unfold binary_ops in Ho.
  repeat (destruct Ho as [<- | Ho]; [reflexivity|]). done.
Qed.

Lemma derives_nonempty s ts : derives s ts -> ts ≠ [].
Proof.
  induction 1 as [ | | | | | e1 op e2 _ IH1 _ _ _ _ | | | e n args _ IHe _ _];
    try done; by destruct e1 || by destruct e.
Qed.

Lemma negated_app s e rest : derives s e -> negated (e ++ rest) = negated e.
Proof. intros H%derives_nonempty. by destruct e. Qed.

(** The automaton reads a phrase of the grammar as one operand. *)
Lemma parse_tokens_derives s ts :
  derives s ts ->
  ∀ depth closable tight rest,
    tight && negated ts = false ->
    parse_tokens depth (Operand closable tight) ((py_token <$> ts) ++ rest)
    = parse_tokens depth Operator rest.
Proof.
  induction 1 as [i f Hwf | x Hwf | e He IH | op e Hop He IH Hneg | op e Hop He IH
                 | e1 op e2 He1 IH1 Hop He2 IH2 Hneg
                 | f n args Hf Hargs IH | e He IH | e n args He IHe Hargs IHargs];
    intros depth closable tight rest Htight.
  - done.
  - done.
  - rewrite fmap_cons, fmap_app, <- app_comm_cons, <- app_assoc. simpl.
    by rewrite IH.
  - rewrite fmap_cons, <- app_comm_cons.
    apply orb_true_iff in Hop as [->%String.eqb_eq | ->%String.eqb_eq]; simpl;
      by rewrite IH by (by rewrite Hneg).
  - simpl in Htight. rewrite Hop, andb_true_r in Htight. subst tight.
    rewrite fmap_cons, <- app_comm_cons.
    apply orb_true_iff in Hop as [->%String.eqb_eq | ->%String.eqb_eq]; simpl;
      by rewrite IH.
  - rewrite (negated_app _ _ _ He1) in Htight.
    rewrite fmap_app, <- app_assoc, IH1, fmap_cons, <- app_comm_cons by done.
    rewrite parse_tokens_binary_op by done. apply IH2.
    by destruct (is_logical op), (negated e2).
  - rewrite !fmap_cons, fmap_app, <- !app_comm_cons, <- app_assoc. simpl.
    by rewrite IH.
  - by apply IH.
  - rewrite (negated_app _ _ _ He) in Htight.
    rewrite fmap_app, <- app_assoc, IHe, fmap_cons, <- app_comm_cons by done. simpl.
    by rewrite IHargs.
Qed.

Lemma parse_tokens_expression ts :
  derives Expr ts ->
  parse_tokens 0 (Operand false false) (py_token <$> ts) = Ok tt.
Proof.
  intros H. rewrite <- (app_nil_r (py_token <$> ts)).
  by rewrite (parse_tokens_derives _ _ H).
Qed.

End grammar.

(** *** The tokenizer on the text of a token *)

Section lexing.

Lemma start_char_ident c :
  is_ident_start c = true -> start_char c = Ok ([], LName (String c "")).
Proof. each_char c. Qed.

Lemma start_char_digit c :
  is_digit c && negb (c =? "0")%char = true -> start_char c = Ok ([], LInt).
Proof. each_char c. Qed.

Lemma rbind_ret_r {A} (r : result A) : rbind r (fun a => Ok a) = r.
Proof. by destruct r. Qed.

Lemma lex_name_chars w acc s :
  all_chars is_word w = true ->
  tokenize_from (LName acc) (w ++ s) = tokenize_from (LName (acc ++ w)) s.
Proof.
  revert acc. induction w as [|b w IH]; intros acc Hw.
  { by rewrite append_nil_r. }
  simpl in Hw. apply andb_true_iff in Hw as [Hb Hw].
  rewrite append_cons. cbn [tokenize_from step]. rewrite Hb. cbn [rbind].
  rewrite IH by done. simpl. rewrite rbind_ret_r.
  by rewrite append_assoc.
Qed.

Lemma lex_int_digits w s :
  all_chars is_digit w = true ->
  tokenize_from LInt (w ++ s) = tokenize_from LInt s.
Proof.
  induction w as [|b w IH]; intros Hw; [done|].
  simpl in Hw. apply andb_true_iff in Hw as [Hb Hw].
  rewrite append_cons. cbn [tokenize_from step]. rewrite Hb. cbn [rbind].
  rewrite IH by done. simpl. by rewrite rbind_ret_r.
Qed.

Lemma lex_frac_digits w s :
  all_chars is_digit w = true ->
  tokenize_from LFrac (w ++ s) = tokenize_from LFrac s.
Proof.
  induction w as [|b w IH]; intros Hw; [done|].
  simpl in Hw. apply andb_true_iff in Hw as [Hb Hw].
  rewrite append_cons. cbn [tokenize_from step]. rewrite Hb. cbn [rbind].
  rewrite IH by done. simpl. by rewrite rbind_ret_r.
Qed.

Lemma lex_blanks n s : tokenize_from LStart (blanks n ++ s) = tokenize_from LStart s.
Proof.
  induction n as [|n IH]; [done|].
  change (blanks (S n) ++ s) with (String " " (blanks n ++ s)).
  cbn [tokenize_from]. change (step LStart " ") with (Ok ([] : list token, LStart)).
  cbn [rbind]. rewrite IH. simpl. by rewrite rbind_ret_r.
Qed.

Lemma classify_wf_ident x : wf_ident x = true -> classify_name x = Ok (TName x).
Proof.
  unfold wf_ident, classify_name. intros H.
  apply andb_true_iff in H as [_ H]. apply negb_true_iff in H.
  cbn [existsb] in H. apply orb_false_elim in H as [-> H].
  apply orb_false_elim in H as [-> H]. apply orb_false_elim in H as [-> H].
  by rewrite H.
Qed.

Lemma reads_rest st t p s :
  reads st t p ->
  match s with "" => True | String c _ => p c = true end ->
  tokenize_from st s = rbind (tokenize_from LStart s) (fun ts => Ok (t :: ts)).
Proof.
  intros [Hflush Hstep] Hs. destruct s as [|c s]; simpl.
  - by rewrite Hflush.
  - rewrite (Hstep c Hs). unfold emit_then.
    destruct (start_char c) as [[out st']| |]; simpl; [|done|done].
    by destruct (tokenize_from st' s).
Qed.

Lemma reads_name x t :
  classify_name x = Ok t -> reads (LName x) t (fun c => negb (is_word c)).
Proof.
  intros Hx. split; simpl; [by rewrite Hx|].
  intros c ->%negb_true_iff. by rewrite Hx.
Qed.

Lemma reads_number st :
  st = LZero ∨ st = LInt ∨ st = LFrac ->
  reads st TNumber (fun c => negb (is_digit c || (c =? ".")%char || is_ident_start c)).
Proof.
  intros Hst. split; [by destruct Hst as [-> | [-> | ->]]|].
  intros c Hc%negb_true_iff. apply orb_false_elim in Hc as [Hc Hi].
  apply orb_false_elim in Hc as [Hd Hdot].
  destruct Hst as [-> | [-> | ->]]; simpl; by rewrite Hd, Hdot, Hi.
Qed.

Lemma number_rest st t s :
  st = LZero ∨ st = LInt ∨ st = LFrac ->
  match s with "" => True | String c _ => ends_at (DNumber t.1 t.2) c = true end ->
  tokenize_from st s = rbind (tokenize_from LStart s) (fun ts => Ok (TNumber :: ts)).
Proof. intros Hst Hs. by apply (reads_rest _ _ _ _ (reads_number st Hst)). Qed.

Lemma reads_op c1 :
  reads (LOp c1) (single_op c1)
    (fun c => match two_char_op c1 c with None => true | Some _ => false end).
Proof.
  split; [done|]. intros c Hc. simpl. by destruct (two_char_op c1 c).
Qed.

Lemma ends_head t s :
  ends t s = true ->
  match s with "" => True | String c _ => ends_at t c = true end.
Proof. by destruct s. Qed.

Lemma tokenize_wf_token t s :
  wf_token t = true -> ends t s = true ->
  tokenize_from LStart (py_text t ++ s)
  = rbind (tokenize_from LStart s) (fun ts => Ok (py_token t :: ts)).
Proof.
  intros Hwf Hs%ends_head. destruct t as [i f | x | op | | |].
  - (* a number *)
    cbn [wf_token] in Hwf. unfold wf_number in Hwf.
    apply andb_true_iff in Hwf as [Hi Hf].
    assert (Hint : ∀ r, tokenize_from LStart (i ++ r) = tokenize_from LZero r
                        ∨ tokenize_from LStart (i ++ r) = tokenize_from LInt r).
    { intros r. apply orb_true_iff in Hi as [Hi | Hi].
      - apply String.eqb_eq in Hi as ->. left. simpl. by rewrite rbind_ret_r.
      - right. apply andb_true_iff in Hi as [Hc Hw].
        destruct i as [|c w]; [done|]. simpl in Hc, Hw.
        apply andb_true_iff in Hw as [_ Hw].
        rewrite append_cons. cbn [tokenize_from step]. rewrite (start_char_digit c Hc).
        cbn [rbind]. rewrite lex_int_digits by done. simpl. by rewrite rbind_ret_r. }
    destruct f as [f|]; cbn [py_text dsl_text py_token].
    + apply andb_true_iff in Hf as [_ Hf]. rewrite !append_assoc.
      assert (Hfrac : ∀ st, st = LZero ∨ st = LInt ->
                tokenize_from st ("." ++ f ++ s)
                = rbind (tokenize_from LStart s) (fun ts => Ok (TNumber :: ts))).
      { intros st Hst.
        assert (tokenize_from st ("." ++ f ++ s) = tokenize_from LFrac (f ++ s)) as ->.
        { destruct Hst as [-> | ->]; simpl; by rewrite rbind_ret_r. }
        rewrite lex_frac_digits by done.
        apply (number_rest _ (i, Some f)); auto. }
      destruct (Hint ("." ++ f ++ s)) as [-> | ->]; apply Hfrac; auto.
    + destruct (Hint s) as [-> | ->]; apply (number_rest _ (i, None)); auto.
  - (* an identifier *)
    cbn [wf_token] in Hwf. pose proof (classify_wf_ident x Hwf) as Hclass.
    unfold wf_ident in Hwf. apply andb_true_iff in Hwf as [Hwf _].
    apply andb_true_iff in Hwf as [Hc Hw].
    destruct x as [|c w]; [done|]. simpl in Hc, Hw.
    apply andb_true_iff in Hw as [_ Hw].
    cbn [py_text dsl_text py_token]. rewrite append_cons. cbn [tokenize_from step].
    rewrite (start_char_ident c Hc). cbn [rbind].
    rewrite lex_name_chars by done. simpl. rewrite rbind_ret_r.
    by apply (reads_rest _ _ _ _ (reads_name _ _ Hclass)).
  - (* an operator *)
    cbn [wf_token] in Hwf. apply existsb_exists in Hwf as (o & Ho & Heq).
    apply String.eqb_eq in Heq as ->. unfold binary_ops in Ho.
    destruct Ho as [<- | Ho].
    { lex. by destruct (tokenize_from LStart s). }
    destruct Ho as [<- | Ho].
    { lex. rewrite !rbind_ret_r.
      by apply (reads_rest _ _ _ _ (reads_name "not" TNot eq_refl)). }
    repeat (destruct Ho as [<- | Ho];
            [first [ lex; rewrite ?rbind_ret_r;
                     match goal with
                     | |- tokenize_from (LOp ?c1) _ = _ =>
                         exact (reads_rest _ _ _ s (reads_op c1) Hs)
                     end
                   | lex; by destruct (tokenize_from LStart s) ] |]).
    done.
  - lex. by destruct (tokenize_from LStart s).
  - lex. by destruct (tokenize_from LStart s).
  - lex. by destruct (tokenize_from LStart s).
Qed.

(** Python reads the translated text of well-formed tokens as these tokens. *)
Lemma tokenize_render ts :
  forallb wf_token ts.*1 = true -> glued ts = true ->
  tokenize (render_with py_text ts) = Ok (py_token <$> ts.*1).
Proof.
  unfold tokenize. induction ts as [|[t n] ts IH]; intros Hwf Hglue; [done|].
  simpl in Hwf, Hglue. apply andb_true_iff in Hwf as [Ht Hts].
  apply andb_true_iff in Hglue as [Hend Hglue].
  cbn [render_with]. rewrite tokenize_wf_token by done.
  by rewrite lex_blanks, IH.
Qed.

End lexing.

(** *** The three replacements *)

Section translation.

Lemma startswith_cons a p b s :
  startswith (String a p) (String b s) = (a =? b)%char && startswith p s.
Proof. reflexivity. Qed.

Lemma replace_from_cons old new b s :
  replace_from old new 0 (String b s) =
    if startswith old (String b s)
    then new ++ replace_from old new (String.length old - 1) s
    else String b (replace_from old new 0 s).
Proof. reflexivity. Qed.

(** A prefix that lacks the first character of [old] is passed through. *)
Lemma replace_plain_prefix o old new a s :
  char_in o a = false ->
  replace (String o old) new (a ++ s) = a ++ replace (String o old) new s.
Proof.
  unfold replace. induction a as [|b a IH]; intros Ha; [done|].
  rewrite char_in_cons in Ha. apply orb_false_elim in Ha as [Hb Ha].
  rewrite !append_cons, replace_from_cons, startswith_cons, Hb. simpl.
  by rewrite IH.
Qed.

Lemma method_replace_translate s :
  rbind (method_replace (PStr s) "&&" " and ")
    (fun v => rbind (method_replace v "||" " or ")
                (fun v => method_replace v "!" " not "))
  = Ok (PStr (translate s)).
Proof. reflexivity. Qed.

Lemma translate_plain a s : plain a -> translate (a ++ s) = a ++ translate s.
Proof.
  intros (H1 & H2 & H3). unfold translate.
  by rewrite !replace_plain_prefix.
Qed.

Lemma plain_word w : all_chars is_word w = true -> plain w.
Proof.
  intros Hw. unfold plain.
  induction w as [|c w IH]; [done|].
  simpl in Hw. apply andb_true_iff in Hw as [Hc Hw].
  rewrite !char_in_cons. destruct (IH Hw) as (-> & -> & ->).
  rewrite !orb_false_r. clear -Hc. by each_char c.
Qed.

Lemma all_chars_impl (p q : ascii -> bool) s :
  (∀ c, p c = true -> q c = true) -> all_chars p s = true -> all_chars q s = true.
Proof.
  intros Hpq. induction s as [|c s IH]; [done|]. simpl.
  intros [Hc Hs]%andb_true_iff. by rewrite (Hpq c Hc), IH.
Qed.

Lemma digit_word c : is_digit c = true -> is_word c = true.
Proof. unfold is_word. intros ->. by rewrite orb_true_r. Qed.

Lemma plain_app a b : plain a -> plain b -> plain (a ++ b).
Proof.
  intros (A1 & A2 & A3) (B1 & B2 & B3). unfold plain.
  by rewrite !char_in_app, A1, A2, A3, B1, B2, B3.
Qed.

Lemma wf_number_chars i f :
  wf_number i f = true ->
  all_chars is_digit i = true
  ∧ match f with Some d => all_chars is_digit d = true | None => True end.
Proof.
  unfold wf_number. intros [Hi Hf]%andb_true_iff. split.
  - apply orb_true_iff in Hi as [->%String.eqb_eq | [_ Hi]%andb_true_iff]; done.
  - destruct f; [|done]. by apply andb_true_iff in Hf as [_ Hf].
Qed.

Lemma translate_token t s :
  wf_token t = true -> translate (dsl_text t ++ s) = py_text t ++ translate s.
Proof.
  intros Hwf. destruct t as [i f | x | op | | |].
  - apply wf_number_chars in Hwf as [Hi Hf].
    apply translate_plain. cbn [py_text dsl_text].
    pose proof (plain_word i (all_chars_impl _ _ _ digit_word Hi)) as Pi.
    destruct f as [d|]; [|done].
    apply plain_app; [done|]. apply plain_app; [by vm_compute|].
    apply plain_word. eapply all_chars_impl; [apply digit_word | exact Hf].
  - apply translate_plain. cbn [py_text dsl_text]. apply plain_word.
    unfold wf_token, wf_ident in Hwf.
    apply andb_true_iff in Hwf as [Hwf _]. by apply andb_true_iff in Hwf as [_ Hwf].
  - cbn [wf_token] in Hwf. apply existsb_exists in Hwf as (o & Ho & Heq).
    apply String.eqb_eq in Heq as ->. unfold binary_ops in Ho.
    repeat (destruct Ho as [<- | Ho]; [reflexivity|]). done.
  - reflexivity.
  - reflexivity.
  - reflexivity.
Qed.

Lemma plain_blanks n : plain (blanks n).
Proof.
  induction n as [|n (H1 & H2 & H3)]; [done|]. unfold plain. cbn [blanks].
  by rewrite !char_in_cons, H1, H2, H3.
Qed.

Lemma translate_render ts :
  forallb wf_token ts.*1 = true ->
  translate (render ts) = render_with py_text ts.
Proof.
  unfold render. induction ts as [|[t n] ts IH]; intros Hwf; [done|].
  simpl in Hwf. apply andb_true_iff in Hwf as [Ht Hts].
  cbn [render_with]. rewrite translate_token by done.
  by rewrite (translate_plain _ _ (plain_blanks n)), IH.
Qed.

End translation.

(** *** Blanks between tokens *)

Section spacing.

Lemma wf_number_head i f :
  wf_number i f = true ->
  ∃ c w, py_text (DNumber i f) = String c w ∧ is_digit c = true.
Proof.
  unfold wf_number. intros [Hi _]%andb_true_iff.
  assert (∃ c w, i = String c w ∧ is_digit c = true) as (c & w & -> & Hc).
  { apply orb_true_iff in Hi as [->%String.eqb_eq | [Hi _]%andb_true_iff].
    - by exists "0"%char, "".
    - destruct i as [|c w]; [done|]. simpl in Hi.
      apply andb_true_iff in Hi as [Hc _]. by exists c, w. }
  exists c. destruct f as [d|]; by eexists.
Qed.

Lemma wf_ident_head x :
  wf_ident x = true -> ∃ c w, x = String c w ∧ is_ident_start c = true.
Proof.
  unfold wf_ident. intros [[Hc _]%andb_true_iff _]%andb_true_iff.
  destruct x as [|c w]; [done|]. by exists c, w.
Qed.

Lemma operator_head t depth rest :
  wf_token t = true ->
  parse_tokens depth Operator (py_token t :: rest) = Ok tt ->
  ∃ c w, py_text t = String c w ∧ after_operand c = true.
Proof.
  intros Hwf Hparse. destruct t as [i f | x | op | | |]; try done;
    [|by eexists _, _..].
  cbn [wf_token] in Hwf. each_operator Hwf; try done; by eexists _, _.
Qed.

Lemma operand_head t depth closable tight rest :
  wf_token t = true ->
  parse_tokens depth (Operand closable tight) (py_token t :: rest) = Ok tt ->
  ∃ c w, py_text t = String c w ∧ before_operand c = true.
Proof.
  intros Hwf Hparse. destruct t as [i f | x | op | | |]; try done.
  - destruct (wf_number_head i f Hwf) as (c & w & -> & Hc).
    exists c, w. split; [done|]. unfold before_operand. by rewrite Hc.
  - destruct (wf_ident_head x Hwf) as (c & w & -> & Hc).
    exists c, w. split; [done|]. unfold before_operand. by rewrite Hc, orb_true_r.
  - cbn [wf_token] in Hwf. each_operator Hwf; try done; by eexists _, _.
  - by eexists _, _.
  - by eexists _, _.
Qed.

Lemma ends_at_blank t : wf_token t = true -> ends_at t " " = true.
Proof.
  destruct t as [i f | x | op | | |]; try done.
  intros Hwf. cbn [wf_token] in Hwf. by each_operator Hwf.
Qed.

Lemma ends_after_operand t c :
  operand_next (py_token t) = false -> after_operand c = true -> ends_at t c = true.
Proof.
  destruct t as [i f | x | op | | |]; try done.
  - intros _ Hc. cbn [ends_at]. by each_char c.
  - intros _ Hc. cbn [ends_at]. by each_char c.
  - cbn [py_token].
    by repeat (match goal with |- context [if ?b then _ else _] => destruct b end).
Qed.

Lemma ends_before_operand t c :
  wf_token t = true -> operand_next (py_token t) = true ->
  match t with DOp op => String.eqb op "not" = false | _ => True end ->
  before_operand c = true -> ends_at t c = true.
Proof.
  destruct t as [i f | x | op | | |]; try done.
  intros Hwf _ Hnot Hc. cbn [wf_token] in Hwf.
  each_operator Hwf; try done; clear -Hc; by each_char c.
Qed.

Lemma parse_tokens_step depth m t rest :
  parse_tokens depth m (t :: rest) = Ok tt ->
  ∃ depth' m', parse_tokens depth' m' rest = Ok tt
    ∧ if operand_next t then ∃ closable tight, m' = Operand closable tight
      else m' = Operator.
Proof.
  destruct m as [closable tight|], t; cbn [parse_tokens operand_next]; try done;
    try (by eauto 6).
  - destruct tight; [done|]. by eauto 6.
  - destruct depth; [done|]. destruct closable; [|done]. by eauto.
  - destruct depth; [done|]. by eauto.
Qed.

(** In a text that the automaton takes, a token ends where the next one
    starts, whether or not a blank stands between them. *)
Lemma glued_parsed ts :
  forallb wf_token ts.*1 = true -> blank_after_not ts = true ->
  ∀ depth m, parse_tokens depth m (py_token <$> ts.*1) = Ok tt -> glued ts = true.
Proof.
  induction ts as [|[t n] ts IH]; intros Hwf Hsp depth m Hparse; [done|].
  cbn [fmap list_fmap fst] in Hwf, Hparse. simpl in Hwf.
  apply andb_true_iff in Hwf as [Ht Hts].
  unfold blank_after_not in Hsp. cbn [forallb] in Hsp.
  apply andb_true_iff in Hsp as [Hn Hsp].
  apply parse_tokens_step in Hparse as (depth' & m' & Hrest & Hm').
  cbn [glued]. rewrite (IH Hts Hsp _ _ Hrest), andb_true_r.
  destruct n as [|n]; [|by apply ends_at_blank].
  destruct ts as [|[t' n'] ts]; [done|].
  cbn [fmap list_fmap fst] in Hrest, Hts. simpl in Hts.
  apply andb_true_iff in Hts as [Ht' _]. cbn [blanks render_with].
  destruct (operand_next (py_token t)) eqn:Hnext.
  - destruct Hm' as (closable & tight & ->).
    destruct (operand_head _ _ _ _ _ Ht' Hrest) as (c & w & -> & Hc).
    rewrite append_nil_l, append_cons. cbn [ends].
    apply ends_before_operand; try done.
    destruct t as [| |op| | |]; try done. simpl in Hn.
    by rewrite orb_false_r in Hn; apply negb_true_iff in Hn.
  - subst m'. destruct (operator_head _ _ _ Ht' Hrest) as (c & w & -> & Hc).
    rewrite append_nil_l, append_cons. cbn [ends]. by apply ends_after_operand.
Qed.

End spacing.

(** *** The expressions of the grammar are accepted *)

Section acceptance.

Lemma function_name_wf f n : arity_ok f n = true -> wf_ident f = true.
Proof.
  unfold arity_ok. intros [[H _]%andb_true_iff | [H _]%andb_true_iff]%orb_true_iff.
  - by apply String.eqb_eq in H as ->.
  - by apply orb_true_iff in H as [->%String.eqb_eq | ->%String.eqb_eq].
Qed.

Lemma sign_wf op : is_sign op = true -> wf_token (DOp op) = true.
Proof. by intros [->%String.eqb_eq | ->%String.eqb_eq]%orb_true_iff. Qed.

Lemma negation_wf op : is_negation op = true -> wf_token (DOp op) = true.
Proof. by intros [->%String.eqb_eq | ->%String.eqb_eq]%orb_true_iff. Qed.

Lemma binary_wf op :
  existsb (String.eqb op) binary_ops = true -> wf_token (DOp op) = true.
Proof. intros H. cbn [wf_token existsb]. by rewrite H, !orb_true_r. Qed.

Lemma derives_wf s ts : derives s ts -> forallb wf_token ts = true.
Proof.
  induction 1 as [i f Hwf | x Hwf | e He IH | op e Hop He IH Hneg | op e Hop He IH
                 | e1 op e2 He1 IH1 Hop He2 IH2 Hneg
                 | f n args Hf Hargs IH | e He IH | e n args He IHe Hargs IHargs];
    rewrite ?forallb_app; cbn [forallb]; rewrite ?forallb_app; cbn [forallb];
    rewrite ?andb_true_r;
    repeat match goal with
      | |- context [wf_token (DIdent ?f)] => change (wf_token (DIdent f)) with (wf_ident f)
      | H : forallb wf_token _ = true |- _ => rewrite H; clear H
      | H : is_sign _ = true |- _ => rewrite (sign_wf _ H); clear H
      | H : is_negation _ = true |- _ => rewrite (negation_wf _ H); clear H
      | H : existsb _ binary_ops = true |- _ => rewrite (binary_wf _ H); clear H
      | H : arity_ok _ _ = true |- _ => rewrite (function_name_wf _ _ H); clear H
      end; done.
Qed.

Lemma derives_head s ts :
  derives s ts -> ∃ t ts', ts = t :: ts' ∧ opens_operand t = true.
Proof.
  induction 1 as [ | | | op e Hop _ _ _ | op e Hop _ _
                 | e1 op e2 _ (t & ts' & -> & Ht) _ _ _ _ | | e _ IH
                 | e n args _ (t & ts' & -> & Ht) _ _]; try (by eauto).
  - eexists _, _. split; [done|]. cbn [opens_operand]. by rewrite Hop.
  - eexists _, _. split; [done|]. cbn [opens_operand]. by rewrite Hop, orb_true_r.
Qed.

Lemma code_char c s :
  is_digit c || is_ident_start c || char_in c "(-+" = true ->
  first_logical_line false (String c s) = Column0 (String c s).
Proof. each_char c. Qed.

Lemma py_text_head t :
  wf_token t = true -> opens_operand t = true ->
  match t with DOp op => String.eqb op "!" = false | _ => True end ->
  ∃ c w, py_text t = String c w
         ∧ is_digit c || is_ident_start c || char_in c "(-+" = true.
Proof.
  destruct t as [i f | x | op | | |]; cbn [opens_operand]; intros Hwf Hop Hbang;
    try done.
  - destruct (wf_number_head i f Hwf) as (c & w & -> & Hc).
    exists c, w. by rewrite Hc.
  - destruct (wf_ident_head x Hwf) as (c & w & -> & Hc).
    exists c, w. by rewrite Hc, orb_true_r.
  - apply orb_true_iff in Hop as [Hop | Hop];
      apply orb_true_iff in Hop as [->%String.eqb_eq | ->%String.eqb_eq];
      try done; by eexists _, _.
  - by eexists _, _.
Qed.

Lemma first_logical_line_expression ts :
  derives Expr ts.*1 -> opens_with_bang ts = false ->
  first_logical_line false (render_with py_text ts)
  = Column0 (render_with py_text ts).
Proof.
  intros H Hbang. pose proof (derives_wf _ _ H) as Hwf.
  destruct (derives_head _ _ H) as (t & ts' & Hts & Ht).
  destruct ts as [|[t0 n] ts]; [done|]. injection Hts as -> _.
  simpl in Hwf. apply andb_true_iff in Hwf as [Hwt _].
  destruct (py_text_head t Hwt Ht) as (c & w & Htext & Hc).
  { by destruct t. }
  cbn [render_with]. rewrite Htext, append_cons. by apply code_char.
Qed.

Lemma py_text_nul t : wf_token t = true -> char_in "000" (py_text t) = false.
Proof.
  intros Hwf. destruct t as [i f | x | op | | |]; try reflexivity.
  - apply wf_number_chars in Hwf as [Hi Hf]. cbn [py_text dsl_text].
    assert (Hd : ∀ d, all_chars is_digit d = true -> char_in "000" d = false).
    { induction d as [|c d IH]; [done|]. simpl. intros [Hc Hd]%andb_true_iff.
      rewrite char_in_cons, IH by done. clear -Hc. by each_char c. }
    destruct f as [d|]; [|by apply Hd].
    rewrite !char_in_app, (Hd i), (Hd d) by done. reflexivity.
  - cbn [wf_token] in Hwf. unfold wf_ident in Hwf.
    apply andb_true_iff in Hwf as [Hwf _]. apply andb_true_iff in Hwf as [_ Hw].
    cbn [py_text dsl_text]. induction x as [|c x IH]; [done|].
    simpl in Hw. apply andb_true_iff in Hw as [Hc Hw].
    rewrite char_in_cons, IH by done. clear -Hc. by each_char c.
  - cbn [wf_token] in Hwf. apply existsb_exists in Hwf as (o & Ho & Heq).
    apply String.eqb_eq in Heq as ->. unfold binary_ops in Ho.
    repeat (destruct Ho as [<- | Ho]; [reflexivity|]). done.
Qed.

Lemma blanks_nul n : char_in "000" (blanks n) = false.
Proof. induction n as [|n IH]; [done|]. cbn [blanks]. by rewrite char_in_cons, IH. Qed.

Lemma render_nul ts :
  forallb wf_token ts.*1 = true -> char_in "000" (render_with py_text ts) = false.
Proof.
  induction ts as [|[t n] ts IH]; intros Hwf; [done|].
  simpl in Hwf. apply andb_true_iff in Hwf as [Ht Hts].
  cbn [render_with]. by rewrite !char_in_app, py_text_nul, blanks_nul, IH.
Qed.

Lemma no_assign after_not ts : unguarded_assign after_not (py_token <$> ts) = false.
Proof.
  revert after_not. induction ts as [|t ts IH]; intros after_not; [done|].
  rewrite fmap_cons. destruct t as [i f | x | op | | |]; try apply IH.
  cbn [py_token].
  repeat (match goal with |- context [if ?b then _ else _] => destruct b end);
    apply IH.
Qed.

(** Python takes the translated text of every expression. *)
Lemma py_parse_expression ts :
  derives Expr ts.*1 -> blank_after_not ts = true -> opens_with_bang ts = false ->
  py_parse (translate (render ts)) = Ok tt.
Proof.
  intros H Hsp Hbang. pose proof (derives_wf _ _ H) as Hwf.
  pose proof (parse_tokens_expression _ H) as Hparse.
  rewrite translate_render by done. unfold py_parse.
  rewrite render_nul, first_logical_line_expression by done.
  rewrite tokenize_render by eauto using glued_parsed. cbn [rbind].
  by rewrite no_assign.
Qed.

Lemma syntax_check_accepts ts σ :
  derives Expr ts.*1 -> blank_after_not ts = true -> opens_with_bang ts = false ->
  _validate_dsl_syntax (PStr (render ts)) σ = (Ok true, σ).
Proof.
  intros H Hsp Hbang. unfold _validate_dsl_syntax, try_except, bind, lift.
  rewrite method_replace_translate. by rewrite (py_parse_expression ts H).
Qed.

End acceptance.

(** *** Accepted texts are balanced *)

Section balance.

Lemma count_char_app c a b : count_char c (a ++ b) = count_char c a + count_char c b.
Proof.
  induction a as [|x a IH]; [done|]. rewrite append_cons. simpl. rewrite IH. lia.
Qed.

Lemma startswith_clean c old s :
  startswith old s = true -> count_char c old = 0 ->
  clean_prefix c (String.length old) s.
Proof.
  revert s. induction old as [|a old IH]; intros s Hs Hc; [done|].
  destruct s as [|b s]; [done|].
  rewrite startswith_cons in Hs. apply andb_true_iff in Hs as [Hab Hs].
  apply Ascii.eqb_eq in Hab as ->. simpl in Hc.
  destruct (c =? b)%char eqn:Hcb; [done|].
  split; [done|]. by apply IH.
Qed.

Lemma count_char_replace_from c old new k s :
  count_char c old = 0 -> count_char c new = 0 -> old ≠ "" ->
  clean_prefix c k s ->
  count_char c (replace_from old new k s) = count_char c s.
Proof.
  intros Hold Hnew Hne. revert k. induction s as [|b s IH]; intros k Hk; [done|].
  destruct k as [|k].
  - rewrite replace_from_cons.
    destruct (startswith old (String b s)) eqn:Hs.
    + pose proof (startswith_clean c old _ Hs Hold) as Hclean.
      destruct old as [|a old]; [done|]. destruct Hclean as [Hcb Hclean].
      rewrite count_char_app, Hnew. simpl. rewrite Hcb.
      replace (String.length old - 0)%nat with (String.length old) by lia.
      by rewrite IH.
    + simpl. by rewrite IH.
  - destruct Hk as [Hcb Hk]. simpl. rewrite Hcb. by rewrite IH.
Qed.

Lemma count_char_translate c s :
  c = "("%char ∨ c = ")"%char -> count_char c (translate s) = count_char c s.
Proof.
  intros Hc. unfold translate, replace.
  rewrite !count_char_replace_from; try done; by destruct Hc as [-> | ->].
Qed.

Lemma first_logical_line_count c b s rest :
  c = "("%char ∨ c = ")"%char ->
  first_logical_line b s = Column0 rest -> count_char c rest = count_char c s.
Proof.
  intros Hc. revert b. induction s as [|x s IH]; intros b H; [done|].
  cbn [first_logical_line] in H.
  destruct (char_in x (String " " _)) eqn:H1.
  { apply IH in H as ->. simpl.
    assert ((c =? x)%char = false) as ->; [|done].
    clear -Hc H1. destruct Hc as [-> | ->]; by each_char x. }
  destruct (x =? "010")%char eqn:H2.
  { apply IH in H as ->. simpl. apply Ascii.eqb_eq in H2 as ->.
    by destruct Hc as [-> | ->]. }
  destruct (char_in x (String "#" _)); [done|]. destruct b; [done|].
  by injection H as <-.
Qed.

Lemma first_logical_line_blank c b s :
  c = "("%char ∨ c = ")"%char ->
  first_logical_line b s = NoCode -> count_char c s = 0.
Proof.
  intros Hc. revert b. induction s as [|x s IH]; intros b H; [done|].
  cbn [first_logical_line] in H.
  destruct (char_in x (String " " _)) eqn:H1.
  { apply IH in H. simpl. rewrite H.
    assert ((c =? x)%char = false) as ->; [|done].
    clear -Hc H1. destruct Hc as [-> | ->]; by each_char x. }
  destruct (x =? "010")%char eqn:H2.
  { apply IH in H. simpl. rewrite H. apply Ascii.eqb_eq in H2 as ->.
    by destruct Hc as [-> | ->]. }
  destruct (char_in x (String "#" _)); [done|]. by destruct b.
Qed.

Lemma start_char_parens c out st :
  start_char c = Ok (out, st) -> same_parens c out.
Proof. each_char c; by intros [= <- <-]. Qed.

Lemma classify_name_parens w t :
  classify_name w = Ok t -> is_lpar t = false ∧ is_rpar t = false.
Proof.
  unfold classify_name.
  repeat (match goal with |- context [if ?b then _ else _] => destruct b end);
    by intros [= <-].
Qed.

Lemma single_op_parens c : is_lpar (single_op c) = false ∧ is_rpar (single_op c) = false.
Proof.
  unfold single_op.
  by repeat (match goal with |- context [if ?b then _ else _] => destruct b end).
Qed.

Lemma emit_then_parens t c out st :
  is_lpar t = false ∧ is_rpar t = false ->
  emit_then t c = Ok (out, st) -> same_parens c out.
Proof.
  intros [Hl Hr]. unfold emit_then.
  destruct (start_char c) as [[ts st']| |] eqn:Hstart; [|done|done].
  intros [= <- <-]. apply start_char_parens in Hstart as [H1 H2].
  unfold same_parens, count_token in *. simpl. by rewrite Hl, Hr.
Qed.

Lemma two_char_op_parens c1 c t :
  two_char_op c1 c = Some (Ok t) -> t = TCmp ∧ c = "="%char.
Proof.
  unfold two_char_op. cbv zeta.
  destruct (existsb _ ["<="; ">="; "=="; "!="]) eqn:H1.
  - intros [= <-]. split; [done|].
    apply existsb_exists in H1 as (o & Ho & Heq). apply String.eqb_eq in Heq.
    repeat (destruct Ho as [<- | Ho]; [by injection Heq|]). done.
  - by case_match.
Qed.

Lemma step_parens st c out st' :
  step st c = Ok (out, st') -> same_parens c out.
Proof.
  destruct st as [|acc| | | |c1]; cbn [step].
  - apply start_char_parens.
  - destruct (is_word c) eqn:Hw.
    + intros [= <- <-]. clear -Hw. by each_char c.
    + destruct (classify_name acc) as [t| |] eqn:Hclass; [|done|done].
      cbn [rbind]. by apply emit_then_parens, (classify_name_parens acc).
  - destruct (is_digit c) eqn:Hd; [done|].
    destruct (c =? ".")%char eqn:Hdot.
    { intros [= <- <-]. apply Ascii.eqb_eq in Hdot as ->. done. }
    destruct (is_ident_start c); [done|]. by apply emit_then_parens.
  - destruct (is_digit c) eqn:Hd.
    { intros [= <- <-]. clear -Hd. by each_char c. }
    destruct (c =? ".")%char eqn:Hdot.
    { intros [= <- <-]. apply Ascii.eqb_eq in Hdot as ->. done. }
    destruct (is_ident_start c); [done|]. by apply emit_then_parens.
  - destruct (is_digit c) eqn:Hd.
    { intros [= <- <-]. clear -Hd. by each_char c. }
    destruct ((c =? ".")%char || is_ident_start c); [done|]. by apply emit_then_parens.
  - destruct (two_char_op c1 c) as [[t| |]|] eqn:Hop; try done.
    + apply two_char_op_parens in Hop as [-> ->]. by intros [= <- <-].
    + apply emit_then_parens, single_op_parens.
Qed.

Lemma flush_parens st out :
  flush st = Ok out -> count_token is_lpar out = 0 ∧ count_token is_rpar out = 0.
Proof.
  destruct st as [|acc| | | |c1]; cbn [flush]; try (by intros [= <-]).
  - destruct (classify_name acc) as [t| |] eqn:Hclass; [|done|done].
    intros [= <-]. apply classify_name_parens in Hclass as [Hl Hr].
    unfold count_token. simpl. by rewrite Hl, Hr.
  - intros [= <-]. destruct (single_op_parens c1) as [Hl Hr].
    unfold count_token. simpl. by rewrite Hl, Hr.
Qed.

Lemma count_token_app p a b : count_token p (a ++ b) = count_token p a + count_token p b.
Proof. unfold count_token. by rewrite List.filter_app, length_app. Qed.

Lemma tokenize_from_parens s st ts :
  tokenize_from st s = Ok ts ->
  count_token is_lpar ts = count_char "(" s ∧ count_token is_rpar ts = count_char ")" s.
Proof.
  revert st ts. induction s as [|c s IH]; intros st ts.
  { apply flush_parens. }
  cbn [tokenize_from].
  destruct (step st c) as [[out st']| |] eqn:Hstep; [|done|done]. cbn [rbind].
  destruct (tokenize_from st' s) as [rest| |] eqn:Hrest; [|done|done].
  intros [= <-]. apply IH in Hrest as [Hl Hr]. apply step_parens in Hstep as [Sl Sr].
  rewrite !count_token_app, Hl, Hr, Sl, Sr. done.
Qed.

Lemma parse_tokens_parens ts depth m :
  parse_tokens depth m ts = Ok tt ->
  depth + count_token is_lpar ts = count_token is_rpar ts.
Proof.
  revert depth m. induction ts as [|t ts IH]; intros depth m.
  - destruct m as [closable tight|]; simpl.
    + destruct closable, depth; simpl; try done.
    + destruct depth; simpl; done.
  - destruct m as [closable tight|]; destruct t; cbn [parse_tokens]; try done;
      unfold count_token; cbn [List.filter is_lpar is_rpar length];
      fold (count_token is_lpar ts); fold (count_token is_rpar ts);
      try (intros H%IH; lia).
    + destruct tight; [done|]. intros H%IH; lia.
    + destruct depth; [done|]. destruct closable; [|done]. intros H%IH; lia.
    + destruct depth; [done|]. intros H%IH; lia.
Qed.

(** A text that Python takes has as many opening as closing parentheses. *)
Lemma py_parse_parens src :
  py_parse src = Ok tt -> count_char "(" src = count_char ")" src.
Proof.
  unfold py_parse. destruct (char_in "000" src); [done|].
  destruct (first_logical_line false src) as [| |rest|] eqn:Hline; try done.
  - intros _. by rewrite !(first_logical_line_blank _ false src) by auto.
  - destruct (tokenize rest) as [ts| |] eqn:Hts; [|done|done]. cbn [rbind].
    destruct (unguarded_assign false ts); [done|].
    intros H%parse_tokens_parens. apply tokenize_from_parens in Hts as [Hl Hr].
    rewrite <- !(first_logical_line_count _ false src rest) by auto. lia.
Qed.

Lemma accepted_text_is_balanced s σ σ' :
  _validate_dsl_syntax (PStr s) σ = (Ok true, σ') ->
  count_char "(" s = count_char ")" s.
Proof.
  unfold _validate_dsl_syntax, try_except, bind, lift.
  rewrite method_replace_translate.
  destruct (py_parse (translate s)) as [[]|e|] eqn:Hparse; simpl.
  - intros _. apply py_parse_parens in Hparse.
    by rewrite !count_char_translate in Hparse by auto.
  - destruct (is_SyntaxError e); [|done]. unfold log, ret. simpl. done.
  - done.
Qed.

End balance.

(** *** The claim *)

Lemma bounded_difference_derives : derives Expr bounded_difference.*1.
Proof.
  apply (derives_binary [DIdent "a"; DOp ">"; DNumber "0" None] "&&"
           [DOp "!"; DLpar; DIdent "abs"; DLpar; DIdent "b"; DOp "-"; DIdent "c";
            DRpar; DOp "<="; DNumber "1" (Some "5"); DRpar]); [|done| |done].
  - apply (derives_binary [DIdent "a"] ">" [DNumber "0" None]); try done.
    + by apply derives_ident.
    + by apply derives_number.
  - apply derives_negation; [done|].
    apply (derives_paren [DIdent "abs"; DLpar; DIdent "b"; DOp "-"; DIdent "c";
                          DRpar; DOp "<="; DNumber "1" (Some "5")]).
    apply (derives_binary [DIdent "abs"; DLpar; DIdent "b"; DOp "-"; DIdent "c"; DRpar]
             "<=" [DNumber "1" (Some "5")]); try done.
    + apply (derives_call "abs" 1 [DIdent "b"; DOp "-"; DIdent "c"]); [done|].
      apply derives_argument.
      apply (derives_binary [DIdent "b"] "-" [DIdent "c"]); try done;
        by apply derives_ident.
    + by apply derives_number.
Qed.




(** * Further properties

    Properties of the same code beyond the claims: the two text passes of
    the compiler, what validation writes and reads, the pipeline as a
    whole, the two computed metrics, the score, the selection, and the
    fallback rules of the generator. *)

Import RuleGenerator Notions Cases.

(** ** The division check is a search in the text *)

Section search.

Lemma contains_cons sub b s :
  contains sub (String b s) = startswith sub (String b s) || contains sub s.
Proof. reflexivity. Qed.

Lemma startswith_head c p s :
  startswith (String c p) s = true -> startswith (String c "") s = true.
Proof.
  destruct s as [|b s]; [done|]. rewrite !startswith_cons.
  intros [-> _]%andb_true_iff. done.
Qed.

(** A text that holds [old] holds its first character. *)
Lemma contains_head c p s :
  contains (String c p) s = true -> contains (String c "") s = true.
Proof.
  induction s as [|b s IH]; [done|]. rewrite !contains_cons.
  intros [H | H]%orb_true_iff.
  - by rewrite (startswith_head _ _ _ H).
  - by rewrite IH, orb_true_r.
Qed.

Lemma contains_app_r sub p q : contains sub q = true -> contains sub (p ++ q) = true.
Proof.
  intros Hq. induction p as [|a p IH]; [done|].
  by rewrite append_cons, contains_cons, IH, orb_true_r.
Qed.

Lemma startswith_app sub q : startswith sub (sub ++ q) = true.
Proof.
  induction sub as [|a sub IH]; [by destruct q|].
  by rewrite append_cons, startswith_cons, Ascii.eqb_refl, IH.
Qed.

Lemma contains_infix sub p q : contains sub (p ++ sub ++ q) = true.
Proof.
  apply contains_app_r. destruct (sub ++ q) as [|a r] eqn:Hr.
  - destruct sub; [done | discriminate].
  - by rewrite contains_cons, <- Hr, startswith_app.
Qed.

Lemma startswith_split sub s : startswith sub s = true -> ∃ q, s = sub ++ q.
Proof.
  revert s. induction sub as [|a sub IH]; intros s; [by exists s|].
  destruct s as [|b s]; [done|]. rewrite startswith_cons.
  intros [Hab Hs]%andb_true_iff. apply Ascii.eqb_eq in Hab as ->.
  destruct (IH s Hs) as [q ->]. by exists q.
Qed.

(** [contains] finds the texts that hold [sub] somewhere. *)
Lemma contains_split sub s : contains sub s = true -> ∃ p q, s = p ++ sub ++ q.
Proof.
  induction s as [|b s IH].
  - unfold contains. rewrite orb_false_r. intros [q ->]%startswith_split. by exists "", q.
  - rewrite contains_cons. intros [H | H]%orb_true_iff.
    + apply startswith_split in H as [q ->]. by exists "", q.
    + destruct (IH H) as (p & q & ->). by exists (String b p), q.
Qed.

Lemma division_risk_run s :
  _has_division_by_zero_risk (PStr s) = Ok (contains "/0" s || contains "/ 0" s).
Proof.
  unfold _has_division_by_zero_risk. cbn [py_in rbind].
  destruct (contains "/" s) eqn:Hslash.
  - by destruct (contains "/0" s).
  - destruct (contains "/0" s) eqn:H0.
    { apply contains_head in H0. congruence. }
    destruct (contains "/ 0" s) eqn:H1; [|done].
    apply contains_head in H1. congruence.
Qed.

(** X1. On a text the division check never raises, and it answers [True]
    exactly when the text holds [/0] or [/ 0] somewhere, whatever comes
    before the slash and after the zero: the first test, for a slash,
    changes nothing. *)
Theorem division_risk_is_a_text_search s :
  ∃ risk, _has_division_by_zero_risk (PStr s) = Ok risk
    ∧ (risk = true ↔ ∃ p q, s = p ++ "/0" ++ q ∨ s = p ++ "/ 0" ++ q).
Proof.
  eexists. split; [apply division_risk_run|]. rewrite orb_true_iff. split.
  - intros [H | H]; apply contains_split in H as (p & q & ->); exists p, q; auto.
  - intros (p & q & [-> | ->]); [left | right]; apply contains_infix.
Qed.

End search.

(** ** The translation leaves no operator of the DSL *)

Section replacements.

Lemma contains_nil sub : contains sub "" = startswith sub "".
Proof. unfold contains. by rewrite orb_false_r. Qed.

Lemma startswith_twice c a s :
  startswith (twice c) (String a s) = (c =? a)%char && head_is (Ascii.eqb c) s.
Proof.
  unfold twice. rewrite startswith_cons. destruct s as [|b s]; [done|].
  rewrite startswith_cons. by rewrite andb_true_r.
Qed.

(** A text that is free of [old] is left as it is. *)
Lemma replace_absent old new s : contains old s = false -> replace old new s = s.
Proof.
  unfold replace. induction s as [|a s IH]; [done|].
  rewrite contains_cons. intros [Hs Hc]%orb_false_elim.
  by rewrite replace_from_cons, Hs, IH.
Qed.

Lemma contains_twice_app c new r :
  char_in c new = false -> new ≠ "" ->
  contains (twice c) (new ++ r) = contains (twice c) r
  ∧ head_is (Ascii.eqb c) (new ++ r) = false.
Proof.
  induction new as [|a new IH]; [done|]. intros Hnew _.
  rewrite char_in_cons in Hnew. apply orb_false_elim in Hnew as [Ha Hnew].
  rewrite append_cons, contains_cons, startswith_twice, Ha. simpl. split; [|done].
  destruct new as [|b new]; [done|]. by apply IH.
Qed.

(** Replacing a single character leaves none of it. *)
Lemma replace_char_gone c new k s :
  char_in c new = false ->
  char_in c (replace_from (String c "") new k s) = false.
Proof.
  intros Hnew. revert k. induction s as [|a s IH]; intros k; [by destruct k|].
  destruct k as [|k]; [|apply IH].
  rewrite replace_from_cons, startswith_cons.
  change (startswith "" s) with true. rewrite andb_true_r.
  destruct (c =? a)%char eqn:Hca.
  - by rewrite char_in_app, Hnew, IH.
  - by rewrite char_in_cons, Hca, IH.
Qed.

Section doubled.
Variables (c : ascii) (new : string).
Hypothesis new_clean : char_in c new = false.
Hypothesis new_some : new ≠ "".

Lemma replace_twice_step a b s :
  replace_from (twice c) new 0 (String a (String b s)) =
    if (c =? a)%char && (c =? b)%char
    then new ++ replace_from (twice c) new 0 s
    else String a (replace_from (twice c) new 0 (String b s)).
Proof.
  rewrite replace_from_cons, startswith_twice. simpl.
  by destruct ((c =? a)%char && (c =? b)%char).
Qed.

Lemma replace_twice_head s :
  head_is (Ascii.eqb c) s = false ->
  head_is (Ascii.eqb c) (replace_from (twice c) new 0 s) = false.
Proof.
  destruct s as [|a s]; [done|]. cbn [head_is]. intros Ha.
  rewrite replace_from_cons, startswith_twice, Ha. done.
Qed.

(** Replacing a doubled character leaves no doubled character. *)
Lemma replace_twice_gone s :
  contains (twice c) (replace_from (twice c) new 0 s) = false.
Proof.
  assert (H : ∀ n s, String.length s <= n ->
            contains (twice c) (replace_from (twice c) new 0 s) = false).
  { clear s. induction n as [|n IH]; intros s Hn.
    { destruct s; [reflexivity | simpl in Hn; lia]. }
    destruct s as [|a [|b s]]; [reflexivity | |].
    { rewrite replace_from_cons, startswith_twice. cbn [head_is].
      rewrite andb_false_r, contains_cons, startswith_twice.
      cbn [replace_from head_is]. rewrite andb_false_r. reflexivity. }
    rewrite replace_twice_step. simpl in Hn.
    destruct ((c =? a)%char && (c =? b)%char) eqn:Hab.
    - rewrite (proj1 (contains_twice_app c new _ new_clean new_some)).
      apply IH. lia.
    - rewrite contains_cons, startswith_twice, IH by (simpl; lia).
      rewrite orb_false_r. destruct (c =? a)%char eqn:Ha; [|done]. cbn [andb] in *.
      apply replace_twice_head. cbn [head_is]. done. }
  by apply (H (String.length s)).
Qed.

End doubled.

(** A replacement that neither looks for [c] nor writes it brings no two
    [c] together. *)
Lemma replace_keeps_twice_out c old new k s :
  char_in c new = false -> new ≠ "" ->
  contains (twice c) s = false ->
  contains (twice c) (replace_from old new k s) = false
  ∧ (k = 0 -> head_is (Ascii.eqb c) (replace_from old new k s) = true ->
     head_is (Ascii.eqb c) s = true).
Proof.
  intros Hnew Hsome. revert k. induction s as [|a s IH]; intros k Hs.
  { by destruct k. }
  rewrite contains_cons in Hs. apply orb_false_elim in Hs as [Ha Hs].
  destruct k as [|k]; [|split; [by apply IH | done]].
  rewrite replace_from_cons. destruct (startswith old (String a s)).
  - destruct (contains_twice_app c new (replace_from old new (String.length old - 1) s)
                Hnew Hsome) as [-> ->].
    split; [by apply IH | done].
  - destruct (IH 0 Hs) as [IH1 IH2]. split; [|done].
    rewrite contains_cons, IH1, orb_false_r, startswith_twice.
    rewrite startswith_twice in Ha.
    destruct (c =? a)%char; [|done]. cbn [andb] in *.
    destruct (head_is (Ascii.eqb c) (replace_from old new 0 s)) eqn:Hh; [|done].
    by rewrite IH2 in Ha.
Qed.

Lemma translate_free s :
  contains "&&" (translate s) = false
  ∧ contains "||" (translate s) = false
  ∧ contains "!" (translate s) = false.
Proof.
  unfold translate, replace. split_and!.
  - apply (replace_keeps_twice_out "&"); [done..|].
    apply (replace_keeps_twice_out "&"); [done..|].
    by apply (replace_twice_gone "&").
  - apply (replace_keeps_twice_out "|"); [done..|].
    by apply (replace_twice_gone "|").
  - by apply (replace_char_gone "!").
Qed.

(** X2. Whatever the DSL text, its translation holds none of [&&], [||] and
    [!] any more, and translating the translation changes nothing. *)
Theorem translation_leaves_no_dsl_operator_and_is_idempotent s :
  ∃ t, _translate_to_python (PStr s) = Ok (PStr t)
       ∧ (∀ op p q, op ∈ ["&&"; "||"; "!"] -> t ≠ p ++ op ++ q)
       ∧ _translate_to_python (PStr t) = Ok (PStr t).
Proof.
  exists (translate s). destruct (translate_free s) as (H1 & H2 & H3).
  split_and!; [done | |].
  - intros op p q Hop Ht.
    assert (Hin : contains op (translate s) = true) by (rewrite Ht; apply contains_infix).
    repeat (apply elem_of_cons in Hop as [-> | Hop]; [congruence|]).
    by apply elem_of_nil in Hop.
  - unfold _translate_to_python. cbn [method_replace rbind].
    by rewrite (replace_absent "&&"), (replace_absent "||"), (replace_absent "!").
Qed.

End replacements.

(** ** What validation writes *)

Section writer.
Variable set_order : list string -> list string.

Lemma state_eta σ : State (heap σ) (logs σ ++ []) = σ.
Proof. destruct σ. simpl. by rewrite app_nil_r. Qed.

Lemma writes_lift {A} (r : result A) : writes (lift r) r [].
Proof. intros σ. unfold lift. by rewrite state_eta. Qed.

Lemma writes_bind {A B} (m : M A) (k : A -> M B) a new r new' :
  writes m (Ok a) new -> writes (k a) r new' -> writes (bind m k) r (new ++ new').
Proof.
  intros Hm Hk σ. unfold bind. rewrite Hm, Hk. simpl. by rewrite app_assoc.
Qed.

Lemma writes_bind_stop {A B} (m : M A) (k : A -> M B) r new :
  writes m r new -> (∀ a, r ≠ Ok a) ->
  writes (bind m k) (match r with Raise e => Raise e | _ => Unmodelled end) new.
Proof.
  intros Hm Hr σ. unfold bind. rewrite Hm. destruct r; [by destruct (Hr a) | done | done].
Qed.

Lemma start_char_no_raise c e : start_char c ≠ Raise e.
Proof.
  unfold start_char.
  by repeat (match goal with |- context [if ?b then _ else _] => destruct b end).
Qed.

Lemma classify_name_no_raise w e : classify_name w ≠ Raise e.
Proof.
  unfold classify_name.
  by repeat (match goal with |- context [if ?b then _ else _] => destruct b end).
Qed.

Lemma emit_then_no_raise t c e : emit_then t c ≠ Raise e.
Proof.
  unfold emit_then. pose proof (start_char_no_raise c) as H.
  by destruct (start_char c) as [[? ?]| |]; [| destruct (H e0) |].
Qed.

Lemma step_no_raise st c e : step st c ≠ Raise e.
Proof.
  destruct st as [|acc| | | |c1]; cbn [step].
  - apply start_char_no_raise.
  - destruct (is_word c); [done|].
    pose proof (classify_name_no_raise acc) as H.
    destruct (classify_name acc) as [t|e0|]; [apply emit_then_no_raise | destruct (H e0); done | done].
  - repeat (match goal with |- context [if ?b then _ else _] => destruct b end);
      try done; apply emit_then_no_raise.
  - repeat (match goal with |- context [if ?b then _ else _] => destruct b end);
      try done; apply emit_then_no_raise.
  - repeat (match goal with |- context [if ?b then _ else _] => destruct b end);
      try done; apply emit_then_no_raise.
  - unfold two_char_op. cbv zeta.
    repeat (match goal with |- context [if ?b then _ else _] => destruct b end);
      try done; apply emit_then_no_raise.
Qed.

Lemma tokenize_from_no_raise s st e : tokenize_from st s ≠ Raise e.
Proof.
  revert st e. induction s as [|c s IH]; intros st e.
  - destruct st; cbn [tokenize_from flush]; try done.
    pose proof (classify_name_no_raise acc) as H.
    destruct (classify_name acc) as [t|e0|]; [done | destruct (H e0); done | done].
  - cbn [tokenize_from]. pose proof (step_no_raise st c) as H.
    destruct (step st c) as [[out st']|e0|]; [|destruct (H e0); done|done].
    cbn [rbind]. pose proof (IH st') as H'.
    destruct (tokenize_from st' s) as [rest|e0|]; [done | destruct (H' e0); done | done].
Qed.

Lemma parse_tokens_raises ts depth m e :
  parse_tokens depth m ts = Raise e -> e = SyntaxError.
Proof.
  revert depth m. induction ts as [|t ts IH]; intros depth m.
  - destruct m as [[] ?|]; cbn [parse_tokens andb]; destruct (Nat.eqb depth 0);
      by intros [= <-].
  - destruct m as [closable tight|], t; cbn [parse_tokens]; try (by intros [= <-]);
      try apply IH; try done.
    + destruct tight; [by intros [= <-] | apply IH].
    + destruct depth; [by intros [= <-]|]. destruct closable; [apply IH | by intros [= <-]].
    + destruct depth; [by intros [= <-] | apply IH].
Qed.

(** The parser raises nothing but syntax errors. *)
Lemma py_parse_raises src e : py_parse src = Raise e -> is_SyntaxError e = true.
Proof.
  unfold py_parse. destruct (char_in "000" src); [done|].
  destruct (first_logical_line false src) as [| |rest|]; try done.
  - by intros [= <-].
  - pose proof (tokenize_from_no_raise rest LStart) as H. unfold tokenize.
    destruct (tokenize_from LStart rest) as [ts|e0|]; [|destruct (H e0); done|done].
    cbn [rbind]. destruct (unguarded_assign false ts); [done|].
    by intros ->%parse_tokens_raises.
Qed.

Lemma py_in_raises x container e : py_in x container = Raise e -> e = TypeError.
Proof. destruct container; simpl; try done; by intros [= <-]. Qed.

(** The syntax check: an error record exactly when it returns [False]. *)
Lemma validate_dsl_syntax_writes dsl :
  ∃ r new, writes (_validate_dsl_syntax dsl) r new
    ∧ (r = Ok true -> new = [])
    ∧ (r = Ok false -> ∃ e, new = [(ERROR, MsgDslSyntaxError e)])
    ∧ ((∀ b, r ≠ Ok b) -> new = [])
    ∧ (∀ e, r = Raise e -> e = AttributeError).
Proof.
  unfold _validate_dsl_syntax.
  destruct dsl as [| | |s| | |];
    try (exists (Raise AttributeError), []; split_and!; try done;
         [intros σ; unfold try_except, bind, lift; simpl; by rewrite state_eta
         | by intros e [= <-]]).
  destruct (py_parse (translate s)) as [[]|e|] eqn:Hparse.
  - exists (Ok true), []. split_and!; try done.
    intros σ. unfold try_except, bind, lift. rewrite method_replace_translate.
    rewrite Hparse. simpl. by rewrite state_eta.
  - exists (Ok false), [(ERROR, MsgDslSyntaxError e)].
    split; [|split; [done|split; [|split; [|done]]]].
    + intros σ. unfold try_except, bind, lift. rewrite method_replace_translate.
      rewrite Hparse. simpl. by rewrite (py_parse_raises _ _ Hparse).
    + intros _. by exists e.
    + intros Hb. by destruct (Hb false).
  - exists Unmodelled, []. split_and!; try done.
    intros σ. unfold try_except, bind, lift. rewrite method_replace_translate.
    rewrite Hparse. simpl. by rewrite state_eta.
Qed.

Lemma check_variables_writes variables_used vars :
  ∃ r new, writes (check_variables variables_used vars) r new
    ∧ (r = Ok true -> new = [])
    ∧ (r = Ok false -> ∃ v, new = [(ERROR, MsgUndefinedVariable v)])
    ∧ ((∀ b, r ≠ Ok b) -> new = [])
    ∧ (∀ e, r = Raise e -> e = TypeError).
Proof.
  induction vars as [|v vars (r & new & IH)].
  { exists (Ok true), []. split_and!; try done. intros σ. simpl. unfold ret.
    by rewrite state_eta. }
  rewrite check_variables_cons.
  destruct (startswith "Q" v && contains "_" v); [by exists r, new|].
  destruct (py_in v variables_used) as [[]|e|] eqn:Hin.
  - exists r, new. destruct IH as (Hw & IH). split; [|done].
    intros σ. unfold bind, lift. apply Hw.
  - exists (Ok false), [(ERROR, MsgUndefinedVariable v)].
    split; [|split; [done|split; [|split; [|done]]]].
    + intros σ. by unfold bind, lift, log, ret.
    + intros _. by exists v.
    + intros Hb. by destruct (Hb false).
  - apply py_in_raises in Hin as ->.
    exists (Raise TypeError), []. split_and!; try done.
    + intros σ. unfold bind, lift. by rewrite state_eta.
    + by intros e [= <-].
  - exists Unmodelled, []. split_and!; try done.
    intros σ. unfold bind, lift. by rewrite state_eta.
Qed.

Lemma validate_variable_references_writes dsl variables_used :
  ∃ r new, writes (_validate_variable_references set_order dsl variables_used) r new
    ∧ (r = Ok true -> new = [])
    ∧ (r = Ok false -> ∃ v, new = [(ERROR, MsgUndefinedVariable v)])
    ∧ ((∀ b, r ≠ Ok b) -> new = [])
    ∧ (∀ e, r = Raise e -> e = TypeError).
Proof.
  unfold _validate_variable_references.
  destruct dsl as [| | |s| | |];
    try (exists (Raise TypeError), []; split_and!; try done;
         [intros σ; unfold bind, lift; by rewrite state_eta | by intros e [= <-]]).
  unfold findall_identifiers. destruct (is_ascii s).
  - destruct (check_variables_writes variables_used
                (set_order (filter (fun var => (var ∉ keywords) ∧ (var ∉ allowed_functions))
                              (filter (fun w => Is_true (head_is is_ident_start w))
                                 (word_runs s)))))
      as (r & new & Hw & IH).
    exists r, new. split; [|done]. intros σ. unfold bind, lift. apply Hw.
  - exists Unmodelled, []. split_and!; try done.
    intros σ. unfold bind, lift. by rewrite state_eta.
Qed.

(** What [validate_rule] adds to the log after its first record. *)

Lemma validate_rule_writes rule :
  ∃ r new,
    writes (validate_rule set_order rule) r
      ((INFO, MsgValidating (get rule "id" unknown_id)) :: new)
    ∧ verdict_records r new.
Proof.
  unfold validate_rule.
  destruct (missing_field required_fields rule) as [field|] eqn:Hfield.
  { exists (Ok false), [(ERROR, MsgMissingField field)]. split; [|left; by eauto].
    intros σ. run. by rewrite <- app_assoc. }
  assert (∃ dsl, rule !! "dsl" = Some dsl) as [dsl Hdsl].
  { unfold required_fields in Hfield. cbn [missing_field] in Hfield.
    repeat (match type of Hfield with
            | context [rule !! ?k] => destruct (rule !! k) eqn:?; [|done]
            end). by eauto. }
  assert (∃ vu, rule !! "variables_used" = Some vu) as [vu Hvu].
  { unfold required_fields in Hfield. cbn [missing_field] in Hfield.
    repeat (match type of Hfield with
            | context [rule !! ?k] => destruct (rule !! k) eqn:?; [|done]
            end). by eauto. }
  destruct (validate_dsl_syntax_writes dsl) as (r1 & new1 & Hw1 & Ht1 & Hf1 & Hx1 & He1).
  destruct r1 as [[]|e|].
  2:{ destruct (Hf1 eq_refl) as [e ->].
      exists (Ok false), [(ERROR, MsgDslSyntaxError e); (ERROR, MsgDslSyntaxFailed)].
      split; [|right; left; by eauto].
      intros σ. run. rewrite Hdsl. simpl. rewrite Hw1. simpl. by rewrite <- !app_assoc. }
  2:{ rewrite (Hx1 ltac:(done)) in Hw1. exists (Raise e), [].
      split; [|split; [done | left; by apply He1]].
      intros σ. run. rewrite Hdsl. simpl. rewrite Hw1. simpl. by rewrite app_nil_r. }
  2:{ rewrite (Hx1 ltac:(done)) in Hw1. exists Unmodelled, []. split; [|done].
      intros σ. run. rewrite Hdsl. simpl. rewrite Hw1. simpl. by rewrite app_nil_r. }
  rewrite (Ht1 eq_refl) in Hw1.
  destruct (validate_variable_references_writes dsl vu)
    as (r2 & new2 & Hw2 & Ht2 & Hf2 & Hx2 & He2).
  destruct r2 as [[]|e|].
  2:{ destruct (Hf2 eq_refl) as [v ->].
      exists (Ok false), [(ERROR, MsgUndefinedVariable v); (ERROR, MsgVariableCheckFailed)].
      split; [|right; right; by eauto].
      intros σ. run. rewrite Hdsl. simpl. rewrite Hw1. simpl. rewrite Hvu. simpl.
      rewrite Hw2. simpl. by rewrite app_nil_r, <- !app_assoc. }
  2:{ rewrite (Hx2 ltac:(done)) in Hw2. exists (Raise e), [].
      split; [|split; [done | right; by apply He2]].
      intros σ. run. rewrite Hdsl. simpl. rewrite Hw1. simpl. rewrite Hvu. simpl.
      rewrite Hw2. simpl. by rewrite !app_nil_r. }
  2:{ rewrite (Hx2 ltac:(done)) in Hw2. exists Unmodelled, []. split; [|done].
      intros σ. run. rewrite Hdsl. simpl. rewrite Hw1. simpl. rewrite Hvu. simpl.
      rewrite Hw2. simpl. by rewrite !app_nil_r. }
  rewrite (Ht2 eq_refl) in Hw2.
  destruct (_has_division_by_zero_risk dsl) as [risk|e|] eqn:Hrisk.
  - exists (Ok true),
      ((if risk then [(WARNING, MsgDivisionByZeroRisk)] else []) ++ [(INFO, MsgValidationPassed)])%list.
    split.
    + intros σ. run. rewrite Hdsl. simpl. rewrite Hw1. simpl. rewrite Hvu. simpl.
      rewrite Hw2. simpl. rewrite Hrisk, !app_nil_r.
      destruct risk; simpl; by rewrite <- !app_assoc.
    + split; [|by destruct risk]. destruct risk; repeat constructor; done.
  - exists (Raise e), []. split.
    + intros σ. run. rewrite Hdsl. simpl. rewrite Hw1. simpl. rewrite Hvu. simpl.
      rewrite Hw2. simpl. by rewrite Hrisk, !app_nil_r.
    + split; [done|]. right. unfold _has_division_by_zero_risk in Hrisk.
      destruct (py_in "/" dsl) as [[]| |] eqn:H1; cbn [rbind] in Hrisk; try done.
      * destruct (py_in "/0" dsl) as [[]| |] eqn:H2; cbn [rbind] in Hrisk; try done.
        -- destruct (py_in "/ 0" dsl) as [| |] eqn:H3; cbn [rbind] in Hrisk; try done.
           injection Hrisk as <-. by apply py_in_raises in H3.
        -- injection Hrisk as <-. by apply py_in_raises in H2.
      * injection Hrisk as <-. by apply py_in_raises in H1.
  - exists Unmodelled, []. split; [|done].
    intros σ. run. rewrite Hdsl. simpl. rewrite Hw1. simpl. rewrite Hvu. simpl.
    rewrite Hw2. simpl. by rewrite Hrisk, !app_nil_r.
Qed.


End writer.

(** ** What validation reads *)

Section presence.
Variable set_order : list string -> list string.

Lemma missing_field_presence fields (rule1 rule2 : pydict) :
  (∀ field, field ∈ fields -> is_Some (rule1 !! field) ↔ is_Some (rule2 !! field)) ->
  missing_field fields rule1 = missing_field fields rule2.
Proof.
  induction fields as [|f fields IH]; intros Hsame; [done|]. cbn [missing_field].
  pose proof (Hsame f ltac:(by left)) as Hf.
  destruct (rule1 !! f) as [v1|], (rule2 !! f) as [v2|].
  - apply IH. intros g Hg. apply Hsame. by right.
  - destruct (proj1 Hf ltac:(by eexists)) as [? [=]].
  - destruct (proj2 Hf ltac:(by eexists)) as [? [=]].
  - done.
Qed.

(** X4. [validate_rule] reads the value of [id], [dsl] and
    [variables_used] only: two rules that agree on these three fields, and
    on which of the six required fields they hold, get the same result and
    the same log records. *)
Theorem validation_reads_three_fields_only rule1 rule2 σ :
  (∀ field, field ∈ required_fields ->
     is_Some (rule1 !! field) ↔ is_Some (rule2 !! field)) ->
  (∀ field, field ∈ fields_read -> rule1 !! field = rule2 !! field) ->
  validate_rule set_order rule1 σ = validate_rule set_order rule2 σ.
Proof.
  intros Hpresent Hread. unfold validate_rule, getitem, get.
  rewrite (missing_field_presence _ _ _ Hpresent).
  rewrite (Hread "id"), (Hread "dsl"), (Hread "variables_used");
    [done | | |]; unfold fields_read; rewrite !elem_of_cons; auto.
Qed.

End presence.

(** The theorem at a rule and the same rule with nothing in its text,
    period and scope. *)
Lemma validation_reads_three_fields_only_witness :
  validate_rule first_occurrence_order fallback_rule empty_state
  = validate_rule first_occurrence_order
      (<["rule_text" := PStr ""]> (<["period" := PNone]>
         (<["industry_scope" := PList []]> fallback_rule))) empty_state.
Proof.
  apply (validation_reads_three_fields_only first_occurrence_order).
  - intros field Hfield. unfold required_fields in Hfield.
    repeat (apply elem_of_cons in Hfield as [-> | Hfield]; [by split; eexists|]).
    by apply elem_of_nil in Hfield.
  - intros field Hfield. unfold fields_read in Hfield.
    repeat (apply elem_of_cons in Hfield as [-> | Hfield]; [reflexivity|]).
    by apply elem_of_nil in Hfield.
Defined.

(** ** The pipeline returns nothing but the empty selection *)

Section pipeline_runs.
Variable set_order : list string -> list string.

Lemma validate_rule_result rule σ τ :
  (validate_rule set_order rule σ).1 = (validate_rule set_order rule τ).1
  ∧ heap (validate_rule set_order rule σ).2 = heap σ.
Proof.
  destruct (validate_rule_writes set_order rule) as (r & new & Hw & _).
  by rewrite (Hw σ), (Hw τ).
Qed.

Lemma rejected_in_any_log σ τ rule :
  heap τ = heap σ -> rejected set_order σ rule -> rejected set_order τ rule.
Proof.
  intros Hheap (fields & Hrule & Hno). exists fields. rewrite Hheap. split; [done|].
  by rewrite (proj1 (validate_rule_result fields τ σ)).
Qed.

Lemma compile_rule_no_value rule σ compiled σ' : compile_rule rule σ ≠ (Ok compiled, σ').
Proof.
  unfold compile_rule. run.
  destruct (heap σ !! rule) as [fields|]; [|done]. simpl.
  destruct (fields !! "dsl") as [dsl|]; [|done]. simpl.
  destruct (_translate_to_python dsl) as [python_expr|e|]; [|done..]. simpl.
  rewrite lookup_insert_eq. simpl.
  destruct (fields !! "variables_used") as [vu|]; [|done]. simpl.
  by destruct (create_execution_function_no_value python_expr vu) as [-> | ->].
Qed.

(** Stage 4 hands on a list only when it is empty: every rule was turned
    down, and the store is as it was. *)
Lemma compile_valid_rules_value rules σ compiled σ' :
  compile_valid_rules set_order rules σ = (Ok compiled, σ') ->
  compiled = [] ∧ heap σ' = heap σ ∧ Forall (rejected set_order σ) rules.
Proof.
  revert σ. induction rules as [|rule rules IH]; intros σ.
  { intros [= <- <-]. done. }
  cbn [compile_valid_rules]. unfold bind at 1, deref.
  destruct (heap σ !! rule) as [fields|] eqn:Hrule; [|done].
  unfold bind at 1.
  destruct (validate_rule_writes set_order fields) as (r & new & Hw & _).
  rewrite (Hw σ). destruct r as [[]|e|]; [|  |done|done].
  - unfold bind at 1.
    destruct (compile_rule rule _) as [[c|e|] σ1] eqn:Hc; [|done|done].
    by apply compile_rule_no_value in Hc.
  - intros H. apply IH in H as (-> & Hheap & Hall). simpl in Hheap.
    split_and!; [done | done |]. constructor.
    + exists fields. split; [done|]. by rewrite (Hw σ).
    + eapply Forall_impl; [exact Hall|]. intros l; by apply rejected_in_any_log.
Qed.

Lemma compile_valid_rules_rejected rules σ :
  Forall (rejected set_order σ) rules ->
  ∃ σ', compile_valid_rules set_order rules σ = (Ok [], σ') ∧ heap σ' = heap σ.
Proof.
  revert σ. induction rules as [|rule rules IH]; intros σ Hall.
  { by exists σ. }
  apply Forall_cons in Hall as [(fields & Hrule & Hno) Hall].
  cbn [compile_valid_rules]. unfold bind at 1, deref. rewrite Hrule.
  unfold bind at 1.
  destruct (validate_rule_writes set_order fields) as (r & new & Hw & _).
  rewrite (Hw σ) in Hno. simpl in Hno. subst r. rewrite (Hw σ).
  destruct (IH (State (heap σ)
                  (logs σ ++ (INFO, MsgValidating (get fields "id" unknown_id)) :: new)))
    as (σ' & -> & Hheap); [|by exists σ'].
  eapply Forall_impl; [exact Hall|]. intros l; by apply rejected_in_any_log.
Qed.

(** The evaluation pass on no rule at all. *)
Lemma evaluate_and_select_nothing self data anomaly_scores σ :
  (∃ z, top_n (config self) = PInt z) ∨ top_n (config self) = PNone ->
  evaluate_and_select_rules self [] data anomaly_scores σ
  = (Ok [], State (heap σ) (logs σ ++ [(INFO, MsgEvaluating 0); (INFO, MsgEvaluated 0)])).
Proof.
  intros Hn. unfold evaluate_and_select_rules. run. unfold _select_optimal_rules.
  fold (top_n (config self)).
  destruct Hn as [[z ->] | ->]; simpl.
  - rewrite !take_nil. destruct (0 <=? z)%Z; simpl; by rewrite <- app_assoc.
  - by rewrite <- app_assoc.
Qed.

Lemma evaluate_and_select_nothing_value self data anomaly_scores σ selected σ' :
  evaluate_and_select_rules self [] data anomaly_scores σ = (Ok selected, σ') ->
  selected = [].
Proof.
  unfold evaluate_and_select_rules. run. unfold _select_optimal_rules.
  destruct (get (config self) "top_n_rules" (PInt 10)) as [|z| | | | |]; simpl;
    try done; [by intros [= <- _] |].
  rewrite !take_nil. destruct (0 <=? z)%Z; simpl; by intros [= <- _].
Qed.


(** X6. When validation turns down every rule, stages 4 and 5 of
    [run_pipeline] complete for any data and any scores: they return the
    empty selection and leave every rule object as it was. [top_n_rules]
    is an integer, [None] or absent. *)
Theorem run_pipeline_completes_when_every_rule_is_rejected
    self rules data anomaly_scores σ :
  Forall (rejected set_order σ) rules ->
  (∃ z, top_n (config self) = PInt z) ∨ top_n (config self) = PNone ->
  ∃ σ', run_pipeline set_order self rules data anomaly_scores σ = (Ok [], σ')
        ∧ heap σ' = heap σ.
Proof.
  intros Hall Hn. unfold run_pipeline, try_except.
  unfold bind at 1, log at 1. unfold bind at 1.
  destruct (compile_valid_rules_rejected rules
              (State (heap σ) (logs σ ++ [(INFO, MsgStage 4)])))
    as (σ1 & -> & Hheap).
  { eapply Forall_impl; [exact Hall|]. intros l; by apply rejected_in_any_log. }
  unfold bind at 1, log at 1. unfold bind at 1. cbn [deref_all]. unfold ret at 1.
  unfold bind at 1. rewrite evaluate_and_select_nothing by done.
  unfold bind, log, ret. eexists. split; [done|]. done.
Qed.

End pipeline_runs.


Lemma run_pipeline_completes_witness :
  ∃ σ', run_pipeline first_occurrence_order (__init__ ∅) [1; 2]%positive one_company ∅
          (store_of [undeclared_rule; unequal_rule]) = (Ok [], σ')
        ∧ heap σ' = heap (store_of [undeclared_rule; unequal_rule]).
Proof.
  apply (run_pipeline_completes_when_every_rule_is_rejected first_occurrence_order).
  - repeat constructor.
    + by exists undeclared_rule.
    + by exists unequal_rule.
  - left. by exists 10%Z.
Defined.

(** ** Coverage and anomaly lift *)

Section metrics.
#[local] Open Scope Q_scope.

Lemma hits_cons p entry data :
  hits p (entry :: data) = ((if fires p entry then 1 else 0) + hits p data)%nat.
Proof. unfold hits. simpl. by destruct (fires p entry). Qed.

Lemma count_hits_run p data n :
  count_hits (PFunc p) data n =
    match first_error p data with
    | Some e => Raise e
    | None => Ok (n + hits p data)%nat
    end.
Proof.
  revert n. induction data as [|[name row] data IH]; intros n.
  { simpl. f_equal. unfold hits. simpl. lia. }
  rewrite hits_cons. unfold fires.
  cbn [count_hits first_error py_call fst snd].
  destruct (p (row_dict name row)) as [e|[]]; cbn [rbind]; [done | |];
    rewrite IH; destruct (first_error p data); try done; f_equal; lia.
Qed.

Lemma hits_le p data : (hits p data <= length data)%nat.
Proof. unfold hits. apply List.filter_length_le. Qed.

Lemma Qnat_le m n : (m <= n)%nat -> Qnat m <= Qnat n.
Proof. intros H. unfold Qnat. rewrite <- Zle_Qle. lia. Qed.

Lemma Qnat_pos n : (0 < n)%nat -> 0 < Qnat n.
Proof. intros H. unfold Qnat. change 0 with (inject_Z 0). rewrite <- Zlt_Qlt. lia. Qed.

Lemma Qnat_nonneg n : 0 <= Qnat n.
Proof. unfold Qnat. change 0 with (inject_Z 0). rewrite <- Zle_Qle. lia. Qed.

Lemma ratio_bounds m n : (m <= n)%nat -> (0 < n)%nat ->
  0 <= Qnat m / Qnat n ∧ Qnat m / Qnat n <= 1.
Proof.
  intros Hmn Hn. pose proof (Qnat_pos n Hn) as Hpos. split.
  - apply Qle_shift_div_l; [done|]. rewrite Qmult_0_l. apply Qnat_nonneg.
  - apply Qle_shift_div_r; [done|]. rewrite Qmult_1_l. by apply Qnat_le.
Qed.

Lemma calculate_coverage_run rule p data :
  rule !! "execute_function" = Some (PFunc p) ->
  match first_error p data with
  | Some e => _calculate_coverage rule data = Raise e
  | None =>
      ∃ c, _calculate_coverage rule data = Ok c
           ∧ c * Qnat (length data) == Qnat (hits p data)
           ∧ 0 <= c ∧ c <= 1
           ∧ (data = [] -> c = 0)
  end.
Proof.
  intros Hf. unfold _calculate_coverage, get. rewrite Hf. cbn [truthy negb].
  rewrite count_hits_run. destruct (first_error p data); [done|]. cbn [rbind].
  eexists. split; [done|]. simpl (0 + _)%nat.
  destruct data as [|entry data]; [by split_and!|].
  assert (Hlen : (0 < length (entry :: data))%nat) by (simpl; lia).
  rewrite (proj2 (Nat.ltb_lt _ _) Hlen).
  pose proof (Qnat_pos _ Hlen) as Hpos.
  destruct (ratio_bounds _ _ (hits_le p (entry :: data)) Hlen) as [H0 H1].
  split_and!; [|done|done|done].
  field. intros Hz. rewrite Hz in Hpos. by apply Qlt_irrefl in Hpos.
Qed.

Lemma collect_hit_scores_run p data scores acc :
  collect_hit_scores (PFunc p) data scores acc =
    match first_error p data with
    | Some e => Raise e
    | None => Ok (acc ++ hit_scores p data scores)%list
    end.
Proof.
  revert acc. induction data as [|[name row] data IH]; intros acc.
  { simpl. by rewrite app_nil_r. }
  unfold hit_scores. cbn [omap list_omap]. fold (hit_scores p data scores).
  unfold fires. cbn [collect_hit_scores first_error py_call fst snd].
  destruct (p (row_dict name row)) as [e|[]]; cbn [rbind]; [done | |].
  - rewrite IH. destruct (first_error p data); [done|].
    destruct (scores !! name); [|done]. by rewrite <- app_assoc.
  - rewrite IH. by destruct (first_error p data).
Qed.

Lemma sum_nonneg l : Forall (fun v => 0 <= v) l -> 0 <= foldr Qplus 0 l.
Proof.
  induction 1 as [|v l Hv _ IH]; [done|]. cbn [foldr].
  apply (Qle_trans _ (0 + foldr Qplus 0 l)); [by rewrite Qplus_0_l|].
  apply Qplus_le_compat; [done | apply Qle_refl].
Qed.

Lemma mean_nonneg l : Forall (fun v => 0 <= v) l -> 0 <= mean l.
Proof.
  intros Hl. unfold mean. destruct l as [|v l]; [done|].
  apply Qle_shift_div_l; [apply Qnat_pos; simpl; lia|].
  rewrite Qmult_0_l. by apply sum_nonneg.
Qed.

Lemma hit_scores_nonneg p data scores :
  map_Forall (fun _ v => 0 <= v) scores ->
  Forall (fun v => 0 <= v) (hit_scores p data scores).
Proof.
  intros Hall. unfold hit_scores. induction data as [|entry data IH]; [constructor|].
  cbn [omap list_omap]. destruct (fires p entry); [|done].
  destruct (scores !! entry.1) as [v|] eqn:Hv; [|done].
  constructor; [by apply (Hall _ _ Hv) | done].
Qed.

Lemma calculate_anomaly_lift_run rule p data anomaly_scores :
  rule !! "execute_function" = Some (PFunc p) ->
  match first_error p data with
  | Some e => _calculate_anomaly_lift rule data anomaly_scores = Raise e
  | None =>
      ∃ lift, _calculate_anomaly_lift rule data anomaly_scores = Ok lift
        ∧ (hit_scores p data anomaly_scores = [] ∨ anomaly_scores = ∅
           ∨ mean (all_scores anomaly_scores) <= 0 -> lift = 1)
        ∧ (hit_scores p data anomaly_scores ≠ [] ->
           0 < mean (all_scores anomaly_scores) ->
           lift = mean (hit_scores p data anomaly_scores) / mean (all_scores anomaly_scores))
        ∧ (map_Forall (fun _ v => 0 <= v) anomaly_scores -> 0 <= lift)
  end.
Proof.
  intros Hf. unfold _calculate_anomaly_lift, get. rewrite Hf. cbn [truthy negb].
  rewrite collect_hit_scores_run. destruct (first_error p data); [done|].
  cbn [rbind app]. fold (all_scores anomaly_scores).
  destruct (hit_scores p data anomaly_scores) as [|h hs] eqn:Hhits.
  { exists 1. split_and!; done. }
  destruct (all_scores anomaly_scores) as [|a rest] eqn:Hall.
  { exists 1. split_and!; try done. }
  assert (Hne : anomaly_scores ≠ ∅).
  { intros ->. unfold all_scores in Hall. by rewrite map_to_list_empty in Hall. }
  destruct (Qltb 0 (mean (a :: rest))) eqn:Hlt.
  - apply Qltb_true in Hlt. eexists. split; [done|]. split_and!.
    + intros [? | [? | Hle]]; [done | done |].
      exfalso. apply (Qlt_irrefl 0). by eapply Qlt_le_trans.
    + done.
    + intros Hnn. apply Qle_shift_div_l; [done|]. rewrite Qmult_0_l.
      rewrite <- Hhits. by apply mean_nonneg, hit_scores_nonneg.
  - exists 1. split_and!; try done.
    intros _ Hpos. apply Qltb_false in Hlt.
    exfalso. apply (Qlt_irrefl 0). by eapply Qlt_le_trans.
Qed.

(** X7. For a rule that holds a predicate: if the predicate raises on a
    row, [_calculate_coverage] raises the exception of the first such row;
    otherwise it returns the share of the rows on which the predicate
    fires, a value from 0 to 1, and 0 on an empty data frame. *)
Theorem coverage_is_the_share_of_rows_that_fire rule p data :
  rule !! "execute_function" = Some (PFunc p) ->
  match first_error p data with
  | Some e => _calculate_coverage rule data = Raise e
  | None =>
      ∃ c, _calculate_coverage rule data = Ok c
           ∧ c * Qnat (length data) == Qnat (hits p data)
           ∧ 0 <= c ∧ c <= 1
           ∧ (data = [] -> c = 0)
  end.
Proof. apply calculate_coverage_run. Qed.

(** Two of three companies have a positive [a]. *)
Lemma coverage_witness :
  ∃ c, _calculate_coverage (compiled "positive" positive_a) three_companies = Ok c
       ∧ c * Qnat 3 == Qnat 2 ∧ 0 <= c ∧ c <= 1
       ∧ (three_companies = [] -> c = 0).
Proof.
  exact (coverage_is_the_share_of_rows_that_fire
           (compiled "positive" positive_a) positive_a three_companies eq_refl).
Defined.



End metrics.

Section lift_of_all.
#[local] Open Scope Q_scope.

Lemma sum_perm (l1 l2 : list Q) : l1 ≡ₚ l2 -> foldr Qplus 0 l1 == foldr Qplus 0 l2.
Proof.
  induction 1 as [|x l1 l2 _ IH|x y l|l1 l2 l3 _ IH1 _ IH2]; simpl.
  - reflexivity.
  - by rewrite IH.
  - ring.
  - by rewrite IH1.
Qed.

Lemma mean_perm (l1 l2 : list Q) : l1 ≡ₚ l2 -> mean l1 == mean l2.
Proof.
  intros H. unfold mean. by rewrite (sum_perm _ _ H), (Permutation_length H).
Qed.

Lemma omap_lookup_keys (scores : gmap string Q) :
  omap (fun k => scores !! k) (map_to_list scores).*1 = (map_to_list scores).*2.
Proof.
  assert (H : ∀ l : list (string * Q),
            Forall (fun kv => scores !! kv.1 = Some kv.2) l ->
            omap (fun k => scores !! k) l.*1 = l.*2).
  { induction 1 as [|[k v] l Hkv _ IH]; [done|].
    cbn [fmap list_fmap omap list_omap fst snd] in *. by rewrite Hkv, IH. }
  apply H, Forall_forall. intros [k v] Hkv. by apply elem_of_map_to_list in Hkv.
Qed.

Lemma hit_scores_all p data scores :
  Forall (fun entry => fires p entry = true) data ->
  hit_scores p data scores = omap (fun k => scores !! k) data.*1.
Proof.
  unfold hit_scores. induction 1 as [|entry data Hf _ IH]; [done|].
  cbn [omap list_omap fmap list_fmap]. by rewrite Hf, IH.
Qed.


Lemma three_scores_lookup company :
  is_Some (three_scores !! company) ↔ company ∈ ["north"; "south"; "west"].
Proof.
  unfold three_scores. cbn [list_to_map foldr uncurry].
  rewrite !lookup_insert_is_Some, lookup_empty, is_Some_alt, !elem_of_cons, elem_of_nil.
  split.
  - intros [<- | [_ [<- | [_ [<- | [_ []]]]]]]; auto.
  - intros [-> | [-> | [-> | []]]]; [by left | right | right].
    + split; [done|]. by left.
    + split; [done|]. right. split; [done|]. by left.
Qed.


End lift_of_all.

(** ** The range of the score *)

Section score_bounds.
#[local] Open Scope Q_scope.

Lemma py_clamp_bounds v : 0 <= py_max 0 (py_min 1 v) ∧ py_max 0 (py_min 1 v) <= 1.
Proof. rewrite py_clamp_is_clamp01. apply clamp01_bounds. Qed.

Lemma add_weighted_bounds weights (d : gmap string pyval) acc :
  Forall (fun nw => 0 <= nw.2) weights ->
  (∀ name v, d !! name = Some v -> is_Some (as_number v)) ->
  ∃ score, add_weighted weights (PDict d) acc = Ok score
    ∧ acc <= score ∧ score <= acc + foldr Qplus 0 weights.*2.
Proof.
  intros Hw Hd. revert acc. induction Hw as [|[n w] weights Hn _ IH]; intros acc.
  { exists acc. simpl. split_and!; [done | apply Qle_refl |].
    rewrite Qplus_0_r. apply Qle_refl. }
  cbn [add_weighted py_in rbind subscript fmap list_fmap foldr snd] in *.
  destruct (d !! n) as [v|] eqn:Hv.
  - rewrite bool_decide_true by done.
    destruct (Hd _ _ Hv) as [q Hq]. cbn [rbind]. unfold number. rewrite Hq. cbn [rbind].
    destruct (IH (acc + py_max 0 (py_min 1 q) * w)) as (score & -> & Hlo & Hhi).
    destruct (py_clamp_bounds q) as [H0 H1].
    exists score. split; [done|]. split.
    + eapply Qle_trans; [|exact Hlo].
      rewrite <- (Qplus_0_r acc) at 1. apply Qplus_le_compat; [apply Qle_refl|].
      by apply Qmult_le_0_compat.
    + eapply Qle_trans; [exact Hhi|]. rewrite <- Qplus_assoc.
      apply Qplus_le_compat; [apply Qle_refl|]. apply Qplus_le_compat; [|apply Qle_refl].
      rewrite <- (Qmult_1_l w) at 2. by apply Qmult_le_compat_r.
  - rewrite bool_decide_false by (by intros [? ?]).
    destruct (IH acc) as (score & -> & Hlo & Hhi).
    exists score. split; [done|]. split; [done|].
    eapply Qle_trans; [exact Hhi|]. apply Qplus_le_compat; [apply Qle_refl|].
    rewrite <- (Qplus_0_l (foldr Qplus 0 weights.*2)) at 1.
    apply Qplus_le_compat; [done | apply Qle_refl].
Qed.





End score_bounds.

(** ** The evaluation pass as a whole *)

Section pass.
#[local] Open Scope Q_scope.

Lemma evaluate_rules_run rules data scores σ :
  evaluate_rules rules data scores σ
  = (Ok (omap (fun rule => evaluated_rule rule data scores) rules),
     State (heap σ) (logs σ ++ omap (failure_record data scores) rules)).
Proof.
  revert σ. induction rules as [|rule rules IH]; intros σ.
  { simpl. unfold ret. destruct σ. simpl. by rewrite app_nil_r. }
  cbn [evaluate_rules omap list_omap]. unfold evaluated_rule at 1, failure_record at 1.
  run. destruct (calculate_rule_metrics_cases rule data scores)
    as [(m & -> & _) | (e & ->)]; simpl.
  - by rewrite IH.
  - rewrite IH. simpl. by rewrite <- app_assoc.
Qed.

Lemma score_rules_run self data scores rules :
  ∃ scored,
    score_rules self (omap (fun rule => evaluated_rule rule data scores) rules) = Ok scored
    ∧ Forall is_scored scored
    ∧ Forall (fun r' => ∃ r, r ∈ rules ∧ selected_from self data scores r r') scored
    ∧ (length scored <= length rules)%nat.
Proof.
  induction rules as [|rule rules (scored & IH & Hscored & Hfrom & Hlen)].
  { exists []. by split_and!. }
  cbn [omap list_omap]. unfold evaluated_rule at 1.
  destruct (calculate_rule_metrics_cases rule data scores)
    as [(m & Hm & ms & Hms) | (e & He)].
  - rewrite Hm. cbn [score_rules subscript rbind]. rewrite lookup_insert_eq. cbn [rbind].
    assert (∃ s, _calculate_overall_score self (PDict m) = Ok s) as [s Hs].
    { rewrite Hms. unfold _calculate_overall_score.
      destruct (add_weighted_sum ms (metric_weights self) 0) as (s & Hs & _). by exists s. }
    rewrite Hs. cbn [rbind]. rewrite IH. cbn [rbind].
    eexists. split; [done|]. split_and!.
    + constructor; [|done]. split.
      * exists m, ms. rewrite lookup_insert_ne by discriminate.
        by rewrite lookup_insert_eq.
      * exists s. by rewrite lookup_insert_eq.
    + constructor.
      * exists rule. split; [by left|]. by exists m, s.
      * eapply Forall_impl; [exact Hfrom|]. intros r' (r & Hr & H). exists r.
        split; [by right | done].
    + simpl. lia.
  - rewrite He. exists scored. split_and!; [done | done | | simpl; lia].
    eapply Forall_impl; [exact Hfrom|]. intros r' (r & Hr & H). exists r.
    split; [by right | done].
Qed.

(** The pass, step by step. *)
Lemma evaluate_and_select_rules_run self rules data scores σ n low high :
  config_values (config self) n low high ->
  ∃ scored,
    Forall (fun r' => ∃ r, r ∈ rules ∧ selected_from self data scores r r') scored
    ∧ (length scored <= length rules)%nat
    ∧ evaluate_and_select_rules self rules data scores σ
      = (Ok (List.filter (in_band low high) (take n (sort_desc overall_score scored))),
         State (heap σ)
           (logs σ ++ (INFO, MsgEvaluating (length rules))
              :: omap (failure_record data scores) rules
              ++ [(INFO, MsgEvaluated
                     (length (List.filter (in_band low high)
                                (take n (sort_desc overall_score scored)))))])).
Proof.
  intros Hconfig.
  destruct (score_rules_run self data scores rules) as (scored & Hscore & Hscored & Hfrom & Hlen).
  exists scored. split; [done|]. split; [done|].
  unfold evaluate_and_select_rules. unfold bind at 1, log at 1. unfold bind at 1.
  rewrite evaluate_rules_run. unfold bind at 1, lift at 1. rewrite Hscore.
  unfold bind at 1, lift at 1. rewrite sort_by_overall_score_scored by done.
  unfold bind at 1, lift at 1.
  rewrite (select_optimal_rules_spec self _ n low high Hconfig).
  - run. by rewrite <- !app_assoc.
  - rewrite sort_desc_perm. eapply Forall_impl; [exact Hscored|]. by intros ? [? _].
Qed.

Lemma selection_length {A} (keep : A -> bool) n (l : list A) :
  (length (List.filter keep (take n l)) <= n)%nat
  ∧ (length (List.filter keep (take n l)) <= length l)%nat.
Proof.
  pose proof (List.filter_length_le keep (take n l)) as H.
  rewrite length_take in H. lia.
Qed.

(** X12. The evaluation pass returns at most [top_n_rules] rules and no
    more than it was given. Each of them is one of the given rules with
    its metrics under [metrics] and its score under [overall_score],
    nothing else changed, and its coverage lies in the band. *)
Theorem selected_rules_are_input_rules_with_metrics_and_score
    self rules data anomaly_scores σ n low high :
  config_values (config self) n low high ->
  ∃ selected σ',
    evaluate_and_select_rules self rules data anomaly_scores σ = (Ok selected, σ')
    ∧ (length selected <= n)%nat ∧ (length selected <= length rules)%nat
    ∧ Forall (fun r' => ∃ r, r ∈ rules ∧ selected_from self data anomaly_scores r r'
                             ∧ in_band low high r' = true) selected.
Proof.
  intros Hconfig.
  destruct (evaluate_and_select_rules_run self rules data anomaly_scores σ n low high Hconfig)
    as (scored & Hfrom & Hlen & ->).
  eexists _, _. split; [done|].
  destruct (selection_length (in_band low high) n (sort_desc overall_score scored)) as [H1 H2].
  rewrite (Permutation_length (sort_desc_perm overall_score scored)) in H2.
  split_and!; [done | lia |].
  apply Forall_forall. intros r' Hr'.
  apply list_elem_of_In, List.filter_In in Hr' as [Hin Hband].
  apply list_elem_of_In in Hin. apply elem_of_take in Hin as (i & Hi & _).
  apply list_elem_of_lookup_2 in Hi. rewrite sort_desc_perm in Hi.
  rewrite Forall_forall in Hfrom. destruct (Hfrom _ Hi) as (r & Hr & H).
  by exists r.
Qed.

(** X13. The evaluation pass raises nothing and leaves the store as it
    was. It writes to the log the number of rules it was given, then one
    ERROR record for each rule whose metrics raise, in the order of the
    rules, with the id of the rule and the exception, then the number of
    rules selected. *)
Theorem evaluation_pass_logs_each_failure_and_leaves_the_store
    self rules data anomaly_scores σ n low high :
  config_values (config self) n low high ->
  ∃ selected,
    evaluate_and_select_rules self rules data anomaly_scores σ
    = (Ok selected,
       State (heap σ)
         (logs σ ++ (INFO, MsgEvaluating (length rules))
            :: omap (failure_record data anomaly_scores) rules
            ++ [(INFO, MsgEvaluated (length selected))])).
Proof.
  intros Hconfig.
  destruct (evaluate_and_select_rules_run self rules data anomaly_scores σ n low high Hconfig)
    as (scored & _ & _ & ->).
  by eexists.
Qed.

(** Two rules, the second with a predicate that raises. *)
Lemma selected_rules_witness :
  ∃ selected σ',
    evaluate_and_select_rules (__init__ wide_band)
      [compiled "positive" positive_a; compiled "failing" failing]
      three_companies three_scores empty_state = (Ok selected, σ')
    ∧ (length selected <= 10)%nat ∧ (length selected <= 2)%nat
    ∧ Forall (fun r' => ∃ r, r ∈ [compiled "positive" positive_a; compiled "failing" failing]
                             ∧ selected_from (__init__ wide_band) three_companies three_scores r r'
                             ∧ in_band 0 1 r' = true) selected.
Proof.
  apply (selected_rules_are_input_rules_with_metrics_and_score (__init__ wide_band)).
  by split_and!.
Defined.

Lemma evaluation_pass_log_witness :
  ∃ selected,
    evaluate_and_select_rules (__init__ wide_band)
      [compiled "positive" positive_a; compiled "failing" failing]
      three_companies three_scores empty_state
    = (Ok selected,
       State ∅
         [(INFO, MsgEvaluating 2);
          (ERROR, MsgEvaluationFailed (PStr "failing") ZeroDivisionError);
          (INFO, MsgEvaluated (length selected))]).
Proof.
  apply (evaluation_pass_logs_each_failure_and_leaves_the_store (__init__ wide_band)
           [compiled "positive" positive_a; compiled "failing" failing]
           three_companies three_scores empty_state 10 0 1).
  by split_and!.
Defined.

End pass.

(** ** The slice of the selection *)

Section slicing.
#[local] Open Scope Q_scope.

(** X14. [_select_optimal_rules] takes any integer as [top_n_rules]: it
    filters by coverage the first [z] rules, or, for a negative [z], all
    but the last [-z]. So 0 selects nothing, a [z] of at least the number
    of rules filters them all, and a negative one is no error. *)
Theorem selection_with_any_integer_top_n self rules z low high :
  top_n (config self) = PInt z ->
  as_number (min_coverage (config self)) = Some low ->
  as_number (max_coverage (config self)) = Some high ->
  Forall has_metrics rules ->
  _select_optimal_rules self rules
  = Ok (List.filter (in_band low high) (take (kept z (length rules)) rules))
  ∧ (z = 0%Z -> _select_optimal_rules self rules = Ok [])
  ∧ ((Z.of_nat (length rules) <= z)%Z ->
     _select_optimal_rules self rules = Ok (List.filter (in_band low high) rules))
  ∧ ((z < 0)%Z ->
     _select_optimal_rules self rules
     = Ok (List.filter (in_band low high)
             (take (length rules - Z.to_nat (- z)) rules))).
Proof.
  intros Hn Hlo Hhi Hrules.
  assert (H : _select_optimal_rules self rules
              = Ok (List.filter (in_band low high) (take (kept z (length rules)) rules))).
  { unfold _select_optimal_rules. fold (top_n (config self)). rewrite Hn.
    unfold slice_to, kept.
    fold (min_coverage (config self)). fold (max_coverage (config self)).
    destruct (0 <=? z)%Z; cbn [rbind];
      (apply filter_by_coverage_in_band; [done | done | by apply Forall_take]). }
  rewrite H. unfold kept. split_and!; [done | | |].
  - by intros ->.
  - intros Hz. rewrite (proj2 (Z.leb_le 0 z)) by lia.
    by rewrite take_ge by lia.
  - intros Hz. rewrite (proj2 (Z.leb_gt 0 z)) by lia. do 3 f_equal. lia.
Qed.

(** Three rules and [top_n_rules] at -1: the third is not looked at. *)
Lemma selection_with_negative_top_n_witness :
  _select_optimal_rules (__init__ all_but_last)
    [measured "first" (5 # 100); measured "second" (50 # 100); measured "third" (3 # 100)]
  = Ok [measured "first" (5 # 100)].
Proof.
  destruct (selection_with_any_integer_top_n (__init__ all_but_last)
              [measured "first" (5 # 100); measured "second" (50 # 100);
               measured "third" (3 # 100)]
              (-1) (2 # 100) (8 # 100)) as (_ & _ & _ & Hneg).
  - reflexivity.
  - reflexivity.
  - reflexivity.
  - repeat constructor; by eexists _, (MetricSet _ 1 (8 # 10) (7 # 10) (6 # 10)).
  - by rewrite Hneg.
Defined.

End slicing.

(** ** Few rows, and no predicate *)

Section small_data.
#[local] Open Scope Q_scope.

Lemma count_hits_range f data n h :
  count_hits f data n = Ok h -> (n <= h <= n + length data)%nat.
Proof.
  revert n. induction data as [|[name row] data IH]; intros n.
  { intros [= <-]. simpl. lia. }
  cbn [count_hits]. destruct (py_call f (row_dict name row)) as [hit| |]; [|done..].
  cbn [rbind]. intros H%IH. simpl. destruct hit; lia.
Qed.

(** A coverage is 0 or the share of at least one row. *)
Lemma calculate_coverage_value rule data c :
  _calculate_coverage rule data = Ok c ->
  c == 0 ∨ ∃ h, (1 <= h)%nat ∧ c * Qnat (length data) == Qnat h.
Proof.
  unfold _calculate_coverage. destruct (negb _); [intros [= <-]; by left|].
  destruct (count_hits _ data 0) as [h| |] eqn:Hh; [|done..]. cbn [rbind].
  apply count_hits_range in Hh. intros [= <-].
  destruct (0 <? length data)%nat eqn:Hlen; [|by left].
  apply Nat.ltb_lt in Hlen. pose proof (Qnat_pos _ Hlen) as Hpos.
  destruct h as [|h].
  - left. unfold Qdiv. change (Qnat 0) with 0. ring.
  - right. exists (S h). split; [lia|]. field.
    intros Hz. rewrite Hz in Hpos. by apply Qlt_irrefl in Hpos.
Qed.

Lemma selected_from_coverage self data scores r r' :
  selected_from self data scores r r' ->
  ∃ c, _calculate_coverage r data = Ok c ∧ coverage_of r' = c.
Proof.
  intros (metrics & score & Hm & _ & ->). unfold _calculate_rule_metrics in Hm.
  destruct (_calculate_coverage r data) as [c| |]; [|done..].
  destruct (_calculate_anomaly_lift r data scores) as [l| |]; [|done..].
  cbn [rbind] in Hm. injection Hm as <-. exists c. split; [done|].
  unfold coverage_of. rewrite lookup_insert_ne by discriminate.
  by rewrite lookup_insert_eq.
Qed.

Lemma filter_none {A} (f : A -> bool) l :
  Forall (fun x => f x = false) l -> List.filter f l = [].
Proof. induction 1 as [|x l Hx _ IH]; [done|]. simpl. by rewrite Hx. Qed.





End small_data.

(** ** The fallback rules of the generator *)

Section fallback.
Variable uuid4_hex : nat -> string.
Variable set_order : list string -> list string.
Hypothesis set_order_elements : ∀ l x, x ∈ set_order l ↔ x ∈ l.

(** A rule with the six fields, a text that Python takes and in which
    every name is accounted for, passes. *)
Lemma validate_rule_passes rule dsl d ids risk σ :
  missing_field required_fields rule = None ->
  rule !! "dsl" = Some (PStr dsl) ->
  rule !! "variables_used" = Some (PDict d) ->
  py_parse (translate dsl) = Ok tt ->
  findall_identifiers dsl = Ok ids ->
  (∀ v, v ∈ ids -> accepted_name d v) ->
  _has_division_by_zero_risk (PStr dsl) = Ok risk ->
  validate_rule set_order rule σ
  = (Ok true,
     State (heap σ)
       (logs σ ++ (INFO, MsgValidating (get rule "id" unknown_id))
          :: (if risk then [(WARNING, MsgDivisionByZeroRisk)] else [])
          ++ [(INFO, MsgValidationPassed)])).
Proof.
  intros Hfields Hdsl Hvu Hparse Hids Hnames Hrisk.
  assert (Hsyntax : ∀ τ, _validate_dsl_syntax (PStr dsl) τ = (Ok true, τ)).
  { intros τ. unfold _validate_dsl_syntax, try_except, bind, lift.
    rewrite method_replace_translate. by rewrite Hparse. }
  assert (Hrefs : ∀ τ, _validate_variable_references set_order (PStr dsl) (PDict d) τ
                       = (Ok true, τ)).
  { intros τ. unfold _validate_variable_references. unfold bind, lift. rewrite Hids.
    apply check_variables_passes. intros v Hv.
    apply set_order_elements, list_elem_of_filter in Hv as [[Hk _] Hv].
    destruct (Hnames v Hv) as [? | ?]; [done | done]. }
  unfold validate_rule. rewrite Hfields. run.
  rewrite Hdsl. simpl. rewrite Hsyntax. simpl. rewrite Hvu. simpl. rewrite Hrefs. simpl.
  rewrite Hrisk. destruct risk; simpl; by rewrite <- !app_assoc.
Qed.

Lemma early_revenue_rule_passes risk_point drawn σ :
  validate_rule set_order (early_revenue_rule uuid4_hex risk_point drawn) σ
  = (Ok true,
     State (heap σ)
       (logs σ ++ [(INFO, MsgValidating
                     (PStr ("fallback_" ++ risk_point ++ "_"
                            ++ substring 0 8 (uuid4_hex drawn))));
                   (INFO, MsgValidationPassed)])).
Proof.
  rewrite (validate_rule_passes _ "(a - b) > (c - d) * 1.5 && a > 15"
             (list_to_map [("a", PStr "营业收入增长率(%)");
                           ("b", PStr "销售商品和提供劳务收到的现金增长率(%)");
                           ("c", PStr "行业营业收入增长率均值");
                           ("d", PStr "行业销售商品和提供劳务收到的现金增长率均值")])
             ["a"; "b"; "c"; "d"; "a"] false); try reflexivity.
  intros v Hv. right. right.
  repeat (apply elem_of_cons in Hv as [-> | Hv]; [by eexists|]).
  by apply elem_of_nil in Hv.
Qed.

Lemma inflated_revenue_rule_passes risk_point drawn σ :
  validate_rule set_order (inflated_revenue_rule uuid4_hex risk_point drawn) σ
  = (Ok true,
     State (heap σ)
       (logs σ ++ [(INFO, MsgValidating
                     (PStr ("fallback_" ++ risk_point ++ "_"
                            ++ substring 0 8 (uuid4_hex drawn))));
                   (INFO, MsgValidationPassed)])).
Proof.
  rewrite (validate_rule_passes _ "a > 20 && g < Q25_g_industry"
             (list_to_map [("a", PStr "营业收入增长率(%)");
                           ("g", PStr "经营性现金流净额/营业收入")])
             ["a"; "g"; "Q25_g_industry"] false); try reflexivity.
  intros v Hv.
  apply elem_of_cons in Hv as [-> | Hv]; [right; right; by eexists|].
  apply elem_of_cons in Hv as [-> | Hv]; [right; right; by eexists|].
  apply elem_of_cons in Hv as [-> | Hv]; [right; left; by split|].
  by apply elem_of_nil in Hv.
Qed.

Lemma fallback_loop_rules risk_points drawn :
  Forall (fun rule => ∃ risk_point k,
            rule = early_revenue_rule uuid4_hex risk_point k
            ∨ rule = inflated_revenue_rule uuid4_hex risk_point k)
    (fallback_loop uuid4_hex risk_points drawn).1
  ∧ length (fallback_loop uuid4_hex risk_points drawn).1
    = length (List.filter recognised risk_points)
  ∧ (fallback_loop uuid4_hex risk_points drawn).2
    = (drawn + length (List.filter recognised risk_points))%nat.
Proof.
  revert drawn. induction risk_points as [|risk_point rest IH]; intros drawn.
  { simpl. split_and!; [constructor | done | lia]. }
  cbn [fallback_loop List.filter].
  destruct (eq_text risk_point early_revenue) eqn:He.
  - assert (recognised risk_point = true) as -> by (unfold recognised; by rewrite He).
    destruct (IH (S drawn)) as (H1 & H2 & H3).
    destruct (fallback_loop uuid4_hex rest (S drawn)) as [rules k].
    cbn [fst snd length] in *.
    split_and!; [constructor; [by eauto | done] | by rewrite H2 | lia].
  - destruct (eq_text risk_point inflated_revenue) eqn:Hi.
    + assert (recognised risk_point = true) as ->
        by (unfold recognised; by rewrite Hi, orb_true_r).
      destruct (IH (S drawn)) as (H1 & H2 & H3).
      destruct (fallback_loop uuid4_hex rest (S drawn)) as [rules k].
      cbn [fst snd length] in *.
      split_and!; [constructor; [by eauto | done] | by rewrite H2 | lia].
    + assert (recognised risk_point = false) as ->
        by (unfold recognised; by rewrite He, Hi).
      apply IH.
Qed.

(** X17. [_generate_fallback_rules] writes one log record, and returns one
    rule for each risk point that it knows, drawing one identifier for
    each. Every rule it returns passes [validate_rule], with no warning,
    in whatever order sets are iterated. *)
Theorem fallback_rules_pass_validation risk_points variable_catalog stats_summary drawn :
  ∃ rules drawn',
    _generate_fallback_rules uuid4_hex risk_points variable_catalog stats_summary drawn
    = ([(INFO, MsgFallbackMethod)], rules, drawn')
    ∧ length rules = length (List.filter recognised risk_points)
    ∧ drawn' = (drawn + length rules)%nat
    ∧ Forall (fun rule => ∀ σ,
                validate_rule set_order rule σ
                = (Ok true,
                   State (heap σ)
                     (logs σ ++ [(INFO, MsgValidating (get rule "id" unknown_id));
                                 (INFO, MsgValidationPassed)]))) rules.
Proof.
  unfold _generate_fallback_rules.
  destruct (fallback_loop_rules risk_points drawn) as (Hrules & Hlen & Hdrawn).
  destruct (fallback_loop uuid4_hex risk_points drawn) as [rules k]. simpl in *.
  exists rules, k. split_and!; [done | done | lia |].
  eapply Forall_impl; [exact Hrules|].
  intros rule (rp & j & [-> | ->]) σ.
  - by rewrite early_revenue_rule_passes.
  - by rewrite inflated_revenue_rule_passes.
Qed.

End fallback.

(** Four risk points, two of them known. *)
Lemma fallback_rules_witness :
  ∃ rules drawn',
    _generate_fallback_rules constant_hex
      [PStr inflated_revenue; PStr "other"; PStr early_revenue; PNone] PNone PNone 0
    = ([(INFO, MsgFallbackMethod)], rules, drawn')
    ∧ length rules = 2%nat
    ∧ drawn' = (0 + length rules)%nat
    ∧ Forall (fun rule => ∀ σ,
                validate_rule first_occurrence_order rule σ
                = (Ok true,
                   State (heap σ)
                     (logs σ ++ [(INFO, MsgValidating (get rule "id" unknown_id));
                                 (INFO, MsgValidationPassed)]))) rules.
Proof.
  apply (fallback_rules_pass_validation constant_hex first_occurrence_order).
  intros l x. apply elem_of_remove_dups.
Defined.
